(** * ai-pr-reviewer: review state, retry policy and patch handling

    A shallow embedding of [src/review-state.ts], [src/retry-logic.ts] and
    the patch functions of [src/review.ts], with the properties the
    specification states about them.

    Conventions.
    - A JavaScript string is the list of its UTF-16 code units ([list N]).
    - A JavaScript number that holds a count or a line number is a [Z].
    - [new Date().toISOString()] is an effect: every function that reads
      the clock takes the timestamp it read as its first argument.
    - [throw] is the left injection of a sum; [null] and [undefined] are
      [None]. *)

From Stdlib Require Import ZArith Lia Ascii String.
From stdpp Require Import base option list gmap sets strings pretty.

Local Open Scope Z_scope.
#[local] Set Warnings "-clear-no-such-hyp".

(** ** JavaScript strings *)

Abbreviation jsstring := (list N).

(** The code units of an ASCII literal. *)
Definition js (s : string) : jsstring :=
  N_of_ascii <$> list_ascii_of_string s.

(** [`${n}`] for an integer [n]. *)
Definition js_of_Z (n : Z) : jsstring := js (pretty n).

(** ** JavaScript numbers

    The numbers of the code are doubles.  Line numbers, counters, token
    counts and delays are written here as integers of [Z].  The two agree
    as long as every value that the code computes is an integer of
    magnitude at most [2 ^ 53], where the arithmetic on doubles is exact;
    beyond that they differ: [2 ^ 53 + 1] is not a double, so a counter
    stops moving at [2 ^ 53] and a sum or a difference is rounded, and
    [parseInt] of more than twenty digits is left to the implementation.
    A theorem whose statement depends on the values therefore carries
    the range in which the integers are the numbers of the code.

    [safe_line n] is the range of line numbers for which every sum and
    difference of two of them, plus or minus one, is exact. *)
Definition safe_line (n : Z) : Prop := - 2 ^ 52 < n < 2 ^ 52.

(** What the code throws: the [SyntaxError] of [JSON.parse], the
    [TypeError] of reading a property of [null] or [undefined], and
    [new Error(message)]. *)
Inductive Exn := SyntaxError | TypeError | Error (message : jsstring).

(** ** Review state ([src/review-state.ts]) *)

Module ReviewState.

Inductive FileStatus :=
  | pending | summarizing | summarized | reviewing | reviewed | failed
  | skipped.

#[global] Instance FileStatus_eq_dec : EqDecision FileStatus.
Proof. solve_decision. Defined.

(** [ReviewState['phase']]: the literals ['summarizing'] and ['reviewing']. *)
Inductive Phase := phase_summarizing | phase_reviewing.

#[global] Instance Phase_eq_dec : EqDecision Phase.
Proof. solve_decision. Defined.

(** The type of [lastError.type]. *)
Inductive LastErrorType :=
  | le_rate_limit | le_timeout | le_network | le_api_error | le_unknown.

Module File.
Record t := mk {
  filename : jsstring;
  status : FileStatus;
  error : option jsstring;
  updatedAt : jsstring;
  skipConfidence : option Z;
  skipReason : option jsstring
}.
End File.
Abbreviation FileReviewStatus := File.t.

Record LastError := {
  message : jsstring;
  timestamp : jsstring;
  type : LastErrorType
}.

Record ReviewState := mkState {
  version : jsstring;
  startedAt : jsstring;
  updatedAt : jsstring;
  commitId : jsstring;
  totalFiles : Z;
  completedFiles : Z;
  failedFiles : Z;
  skippedFiles : Z;
  phase : Phase;
  files : list FileReviewStatus;
  lastError : option LastError
}.

(** The optional fourth argument of [updateFileStatus]. *)
Record Options := {
  opt_error : option jsstring;
  opt_skipConfidence : option Z;
  opt_skipReason : option jsstring
}.

(** The message of the error [updateFileStatus] throws. *)
Definition not_found (filename : jsstring) : jsstring :=
  js "File " ++ filename ++ js " not found in review state".

(** [createReviewState(commitId, files)]; [files] is given by the
    [filename] of each element. *)
Definition createReviewState (now : jsstring) (commitId : jsstring)
    (files : list jsstring) : ReviewState :=
  {| version := js "1.0";
     startedAt := now;
     updatedAt := now;
     commitId := commitId;
     totalFiles := Z.of_nat (length files);
     completedFiles := 0;
     failedFiles := 0;
     skippedFiles := 0;
     phase := phase_summarizing;
     files := (λ f, File.mk f pending None now None None) <$> files;
     lastError := None |}.

(** [Array.prototype.findIndex]: the index of the first element that
    satisfies [p], or [-1]. *)
Fixpoint findIndex {A} (p : A → bool) (l : list A) : Z :=
  match l with
  | [] => -1
  | x :: l' =>
      if p x then 0
      else let i := findIndex p l' in if i =? -1 then -1 else i + 1
  end.

Definition completedDelta_of (oldStatus status : FileStatus) : Z :=
  let d := 0 in
  let d := if bool_decide (oldStatus = reviewed ∨ oldStatus = skipped)
           then d - 1 else d in
  if bool_decide (status = reviewed ∨ status = skipped) then d + 1 else d.

Definition failedDelta_of (oldStatus status : FileStatus) : Z :=
  let d := 0 in
  let d := if bool_decide (oldStatus = failed) then d - 1 else d in
  if bool_decide (status = failed) then d + 1 else d.

Definition skippedDelta_of (oldStatus status : FileStatus) : Z :=
  let d := 0 in
  let d := if bool_decide (oldStatus = skipped) then d - 1 else d in
  if bool_decide (status = skipped) then d + 1 else d.

Definition updateFileStatus (now : jsstring) (state : ReviewState)
    (filename : jsstring) (status : FileStatus) (options : option Options)
    : Exn + ReviewState :=
  let fileIndex :=
    findIndex (λ f, bool_decide (File.filename f = filename)) (files state) in
  if fileIndex =? -1 then inl (Error (not_found filename))
  else
    match files state !! Z.to_nat fileIndex with
    | None => inl TypeError
    | Some old =>
        let oldStatus := File.status old in
        let newFiles :=
          <[Z.to_nat fileIndex :=
              {| File.filename := File.filename old;
                 File.status := status;
                 File.updatedAt := now;
                 File.error := options ≫= opt_error;
                 File.skipConfidence := options ≫= opt_skipConfidence;
                 File.skipReason := options ≫= opt_skipReason |}]>
            (files state) in
        inr {| version := version state;
               startedAt := startedAt state;
               updatedAt := now;
               commitId := commitId state;
               totalFiles := totalFiles state;
               completedFiles :=
                 Z.max 0 (completedFiles state
                          + completedDelta_of oldStatus status);
               failedFiles :=
                 Z.max 0 (failedFiles state + failedDelta_of oldStatus status);
               skippedFiles :=
                 Z.max 0 (skippedFiles state
                          + skippedDelta_of oldStatus status);
               phase := phase state;
               files := newFiles;
               lastError := lastError state |}
    end.

Definition updatePhase (now : jsstring) (state : ReviewState) (ph : Phase)
    : ReviewState :=
  {| version := version state;
     startedAt := startedAt state;
     updatedAt := now;
     commitId := commitId state;
     totalFiles := totalFiles state;
     completedFiles := completedFiles state;
     failedFiles := failedFiles state;
     skippedFiles := skippedFiles state;
     phase := ph;
     files := files state;
     lastError := lastError state |}.

(** [recordError] reads the clock twice: [now] for [updatedAt], [now']
    for the error's [timestamp]. *)
Definition recordError (now now' : jsstring) (state : ReviewState)
    (error : jsstring) (ty : LastErrorType) : ReviewState :=
  {| version := version state;
     startedAt := startedAt state;
     updatedAt := now;
     commitId := commitId state;
     totalFiles := totalFiles state;
     completedFiles := completedFiles state;
     failedFiles := failedFiles state;
     skippedFiles := skippedFiles state;
     phase := phase state;
     files := files state;
     lastError :=
       Some {| message := error; timestamp := now'; type := ty |} |}.

(** [isSameReview(state1, state2)]; a [null] state is [None].  The two
    [Set]s are [gset]s; the loop over [files1] only computes a
    conjunction, so the order in which it visits the elements does not
    matter. *)
Definition isSameReview (state1 state2 : option ReviewState) : bool :=
  match state1, state2 with
  | Some s1, Some s2 =>
      if negb (bool_decide (commitId s1 = commitId s2)) then false
      else if negb (length (files s1) =? length (files s2))%nat then false
      else
        let files1 : gset jsstring :=
          list_to_set (File.filename <$> files s1) in
        let files2 : gset jsstring :=
          list_to_set (File.filename <$> files s2) in
        forallb (λ filename, bool_decide (filename ∈ files2))
                (elements files1)
  | _, _ => false
  end.

(** States built by [createReviewState] and then changed only through
    the three transition functions. *)
Inductive reachable (commit : jsstring) (names : list jsstring)
    : ReviewState → Prop :=
  | reach_create now :
      reachable commit names (createReviewState now commit names)
  | reach_updateFileStatus now s filename status options s' :
      reachable commit names s →
      updateFileStatus now s filename status options = inr s' →
      reachable commit names s'
  | reach_updatePhase now s ph :
      reachable commit names s →
      reachable commit names (updatePhase now s ph)
  | reach_recordError now now' s e ty :
      reachable commit names s →
      reachable commit names (recordError now now' s e ty).

(** The number of files of [l] whose status satisfies [p]. *)
Definition count_status (p : FileStatus → bool) (l : list FileReviewStatus)
    : Z :=
  Z.of_nat (length (filter (λ f, Is_true (p (File.status f))) l)).

Definition is_completed (s : FileStatus) : bool :=
  bool_decide (s = reviewed ∨ s = skipped).
Definition is_failed (s : FileStatus) : bool := bool_decide (s = failed).
Definition is_skipped (s : FileStatus) : bool := bool_decide (s = skipped).

Definition b2z (b : bool) : Z := if b then 1 else 0.

(** The set of the filenames of a state. *)
Definition filename_set (s : ReviewState) : gset jsstring :=
  list_to_set (File.filename <$> files s).

(** The entry [updateFileStatus] writes for [filename]. *)
Definition updated_entry (now filename : jsstring) (status : FileStatus)
    (options : option Options) : FileReviewStatus :=
  {| File.filename := filename;
     File.status := status;
     File.updatedAt := now;
     File.error := options ≫= opt_error;
     File.skipConfidence := options ≫= opt_skipConfidence;
     File.skipReason := options ≫= opt_skipReason |}.

Definition counters_exact (s : ReviewState) : Prop :=
  completedFiles s = count_status is_completed (files s)
  ∧ failedFiles s = count_status is_failed (files s)
  ∧ skippedFiles s = count_status is_skipped (files s).

(** *** Persisted state: [deserializeState]

    [JSON.parse] is a built-in: it is a parameter [JSON_parse], which
    either throws or returns a value.  Numbers are doubles; only their
    truthiness is read here, so the number type is a parameter with the
    predicate [number_truthy] (false exactly on [0] and [-0]). *)

Section Json.
Local Set Warnings "-register-all".
Context {number : Type}.
Variable number_truthy : number → bool.

Inductive json :=
  | JNull
  | JBool (b : bool)
  | JNum (x : number)
  | JStr (s : jsstring)
  | JArr (items : list json)
  | JObj (fields : list (jsstring * json)).

Variable JSON_parse : jsstring → Exn + json.

(** The value of key [k] among the properties of an object. *)
Fixpoint assoc (k : jsstring) (fields : list (jsstring * json))
    : option json :=
  match fields with
  | [] => None
  | (k', v) :: fields' =>
      if bool_decide (k' = k) then Some v else assoc k fields'
  end.

(** [state.k] for one of the keys [version], [startedAt], [commitId] and
    [files], none of which is a property of a prototype: reading it from
    [null] throws, from an object gives the object's own property, from
    anything else gives [undefined]. *)
Definition get (state : json) (k : jsstring) : Exn + option json :=
  match state with
  | JNull => inl TypeError
  | JObj fields => inr (assoc k fields)
  | _ => inr None
  end.

(** [ToBoolean]; [None] is [undefined]. *)
Definition truthy (v : option json) : bool :=
  match v with
  | None | Some JNull => false
  | Some (JBool b) => b
  | Some (JNum x) => number_truthy x
  | Some (JStr s) => negb (bool_decide (s = []))
  | Some (JArr _) | Some (JObj _) => true
  end.

Definition Array_isArray (v : option json) : bool :=
  match v with Some (JArr _) => true | _ => false end.

(** [v === s] for a string literal [s]. *)
Definition strict_eq_string (v : option json) (s : jsstring) : bool :=
  match v with Some (JStr s') => bool_decide (s' = s) | _ => false end.

Definition bind_exn {A B} (x : Exn + A) (f : A → Exn + B) : Exn + B :=
  match x with inl e => inl e | inr a => f a end.

(** The body of the [try] block. *)
Definition deserializeState_try (text : jsstring) : Exn + option json :=
  bind_exn (JSON_parse text) (λ state,
  bind_exn (get state (js "version")) (λ version,
  if negb (truthy version) then inr None else
  bind_exn (get state (js "startedAt")) (λ startedAt,
  if negb (truthy startedAt) then inr None else
  bind_exn (get state (js "commitId")) (λ commitId,
  if negb (truthy commitId) then inr None else
  bind_exn (get state (js "files")) (λ files,
  if negb (Array_isArray files) then inr None else
  bind_exn (get state (js "version")) (λ version',
  if negb (strict_eq_string version' (js "1.0")) then inr None
  else inr (Some state))))))).

(** [try { ... } catch { return null }] *)
Definition deserializeState (text : jsstring) : Exn + option json :=
  match deserializeState_try text with
  | inl _ => inr None
  | inr r => inr r
  end.

(** The property [k] of a parsed value, [None] when the value has no such
    property (in particular when it is not an object). *)
Definition field (state : json) (k : jsstring) : option json :=
  match state with JObj fields => assoc k fields | _ => None end.

Definition is_falsy (v : option json) : Prop :=
  v = None ∨ v = Some JNull ∨ v = Some (JBool false)
  ∨ (∃ x, v = Some (JNum x) ∧ number_truthy x = false)
  ∨ v = Some (JStr []).

(** Rejection as the specification words it: a field is missing, [files]
    is not an array, or [version] is not ["1.0"]. *)
Definition rejected_as_stated (state : json) : Prop :=
  field state (js "version") = None
  ∨ field state (js "startedAt") = None
  ∨ field state (js "commitId") = None
  ∨ (∀ items, field state (js "files") ≠ Some (JArr items))
  ∨ field state (js "version") ≠ Some (JStr (js "1.0")).

(** Rejection as the code decides it: presence is tested by
    truthiness. *)
Definition rejected (state : json) : Prop :=
  is_falsy (field state (js "version"))
  ∨ is_falsy (field state (js "startedAt"))
  ∨ is_falsy (field state (js "commitId"))
  ∨ (∀ items, field state (js "files") ≠ Some (JArr items))
  ∨ field state (js "version") ≠ Some (JStr (js "1.0")).

(** A persisted state without files, as text and as the value
    [JSON.parse] gives for that text; only [startedAt] varies. *)
Definition quoted (s : string) : jsstring := [34%N] ++ js s ++ [34%N].

Definition sample_text (startedAt : string) : jsstring :=
  js "{" ++ quoted "version" ++ js ":" ++ quoted "1.0" ++ js ","
  ++ quoted "startedAt" ++ js ":" ++ quoted startedAt ++ js ","
  ++ quoted "commitId" ++ js ":" ++ quoted "abc123" ++ js ","
  ++ quoted "files" ++ js ":[]}".

Definition sample_value (startedAt : string) : json :=
  JObj [(js "version", JStr (js "1.0"));
        (js "startedAt", JStr (js startedAt));
        (js "commitId", JStr (js "abc123"));
        (js "files", JArr [])].

End Json.

(** *** Queries on the state *)

Definition to_summarize (s : FileStatus) : bool :=
  bool_decide (s = pending ∨ s = failed ∨ s = summarizing).

Definition to_review (s : FileStatus) : bool :=
  bool_decide (s = summarized ∨ s = reviewing).

Definition getFilesToProcess (state : ReviewState) : list FileReviewStatus :=
  if bool_decide (phase state = phase_summarizing) then
    filter (λ f, Is_true (to_summarize (File.status f))) (files state)
  else
    filter (λ f, Is_true (to_review (File.status f))) (files state).

Definition isReviewComplete (state : ReviewState) : bool :=
  bool_decide (completedFiles state + failedFiles state = totalFiles state).

(** The statuses [getFilesToProcess] asks for in a phase. *)
Definition wanted (ph : Phase) (s : FileStatus) : bool :=
  if bool_decide (ph = phase_summarizing) then to_summarize s
  else to_review s.

(** A status that ends the work on a file: it is counted by
    [completedFiles] or by [failedFiles]. *)
Definition is_settled (s : FileStatus) : bool :=
  bool_decide (s = reviewed ∨ s = skipped ∨ s = failed).

End ReviewState.

(** ** Retry policy ([src/retry-logic.ts]) *)

Module RetryLogic.

(** Modelled from the spec: the type [ErrorType], which [retry-logic.ts]
    imports from [./review-state] and which is declared in no source file
    at hand.  Its members are those the specification lists, which are
    also the string literals the [switch] of [getRetryStrategy] names. *)
Inductive ErrorType :=
  | rate_limit | timeout | network | api_error | token_limit | unknown.

#[global] Instance ErrorType_eq_dec : EqDecision ErrorType.
Proof. solve_decision. Defined.

Record RetryStrategy := {
  strategy_maxAttempts : Z;
  baseDelay : Z;
  strategy_shouldRetry : bool
}.

(** [perErrorTypeMaxAttempts] is an optional object whose keys are error
    types, each optional. *)
Record RetryConfig := {
  maxAttempts : Z;
  perErrorTypeMaxAttempts : option (ErrorType → option Z)
}.

Definition getRetryStrategy (errorType : ErrorType) : RetryStrategy :=
  match errorType with
  | rate_limit =>
      {| strategy_maxAttempts := 5; baseDelay := 5000;
         strategy_shouldRetry := true |}
  | timeout | network =>
      {| strategy_maxAttempts := 3; baseDelay := 2000;
         strategy_shouldRetry := true |}
  | token_limit =>
      {| strategy_maxAttempts := 0; baseDelay := 0;
         strategy_shouldRetry := false |}
  | api_error | unknown =>
      {| strategy_maxAttempts := 2; baseDelay := 1000;
         strategy_shouldRetry := true |}
  end.

(** [a ?? b] *)
Definition nullish {A} (a : option A) (b : A) : A := default b a.

Definition shouldRetry (currentAttempt : Z) (errorType : ErrorType)
    (config : RetryConfig) : bool :=
  let strategy := getRetryStrategy errorType in
  if negb (strategy_shouldRetry strategy) then false
  else
    let maxAttempts :=
      nullish (perErrorTypeMaxAttempts config ≫= λ m, m errorType)
              (maxAttempts config) in
    currentAttempt <? maxAttempts.

Definition DEFAULT_MAX_DELAY : Z := 300000.

(** [calculateBackoffDelay(attempt, baseDelay, maxDelay = DEFAULT_MAX_DELAY)]
    for a whole attempt number and delays in whole milliseconds, which is
    what [getRetryStrategy] provides; [2 ^ attempt] is
    [Math.pow(2, attempt)].  A delay with a fraction, such as a base
    delay between 0 and 1, is outside this embedding: what is proved of
    a positive base delay is proved of a base delay of at least 1. *)
Definition calculateBackoffDelay (attempt baseDelay : Z)
    (maxDelay : option Z) : Z :=
  let maxDelay := default DEFAULT_MAX_DELAY maxDelay in
  let attempt := if attempt <? 0 then 0 else attempt in
  if baseDelay =? 0 then 0
  else
    let delay := baseDelay * 2 ^ attempt in
    Z.min delay maxDelay.

End RetryLogic.

(** ** Patches and review mapping ([src/review.ts]) *)

Module Review.

(** *** Regular expressions

    Both patterns carry the flags [g] and [m]: [^] matches at index 0 and
    after a line terminator, [.] matches any code unit but a line
    terminator, [$] matches at the end and before a line terminator. *)

Definition is_line_terminator (c : N) : bool :=
  bool_decide (c = 10 ∨ c = 13 ∨ c = 8232 ∨ c = 8233)%N.

(** [\d] *)
Definition is_digit (c : N) : bool := ((48 <=? c) && (c <=? 57))%N.

Fixpoint take_while (p : N → bool) (s : jsstring) : jsstring :=
  match s with
  | c :: s' => if p c then c :: take_while p s' else []
  | [] => []
  end.

Fixpoint drop_while (p : N → bool) (s : jsstring) : jsstring :=
  match s with
  | c :: s' => if p c then drop_while p s' else s
  | [] => []
  end.

(** A literal: the rest of [s] after the prefix [p], if [s] starts with
    [p]. *)
Fixpoint lit (p s : jsstring) : option jsstring :=
  match p, s with
  | [], _ => Some s
  | c :: p', d :: s' => if bool_decide (c = d) then lit p' s' else None
  | _ :: _, [] => None
  end.

(** [(\d+)]: the digits and the rest.  The next element of either
    pattern is never a digit, so the greedy match is the only one. *)
Definition digits1 (s : jsstring) : option (jsstring * jsstring) :=
  match take_while is_digit s with
  | [] => None
  | ds => Some (ds, drop_while is_digit s)
  end.

(** The capture groups 2 to 5 of a header. *)
Record Groups := {
  group2 : jsstring; group3 : jsstring; group4 : jsstring; group5 : jsstring
}.

(** [@@ -(\d+),(\d+) \+(\d+),(\d+) @@] at the head of [s]: the groups
    and what follows the match. *)
Definition header (s : jsstring) : option (Groups * jsstring) :=
  s ← lit (js "@@ -") s;
  '(g2, s) ← digits1 s;
  s ← lit (js ",") s;
  '(g3, s) ← digits1 s;
  s ← lit (js " +") s;
  '(g4, s) ← digits1 s;
  s ← lit (js ",") s;
  '(g5, s) ← digits1 s;
  s ← lit (js " @@") s;
  Some ({| group2 := g2; group3 := g3; group4 := g4; group5 := g5 |}, s).

(** The pattern of [patchStartEndLine] at a line start: the groups and
    the length of the match. *)
Definition header_match (s : jsstring) : option (Groups * nat) :=
  '(g, rest) ← header s;
  Some (g, (length s - length rest)%nat).

(** The pattern of [splitPatch] at a line start: the header followed by
    [.*$]; the length of the match. *)
Definition header_line_match (s : jsstring) : option nat :=
  '(_, rest) ← header s;
  Some (length s - length rest
        + length (take_while (λ c, negb (is_line_terminator c)) rest))%nat.

(** The leftmost match at or after the head of [s], which is at index [i]
    of the subject; [bol] tells whether [^] matches at [i]. *)
Fixpoint search {A} (m : jsstring → option A) (bol : bool) (s : jsstring)
    (i : nat) : option (nat * A) :=
  match (if bol then m s else None) with
  | Some a => Some (i, a)
  | None =>
      match s with
      | [] => None
      | c :: s' => search m (is_line_terminator c) s' (S i)
      end
  end.

(** Whether [^] matches at index [i] of [patch]. *)
Definition bol_at (patch : jsstring) (i : nat) : bool :=
  match i with
  | O => true
  | S j => from_option is_line_terminator false (patch !! j)
  end.

(** [pattern.exec(patch)] with [pattern.lastIndex = lastIndex]: the
    index of the match and what it matched, or [null]. *)
Definition exec {A} (m : jsstring → option A) (patch : jsstring)
    (lastIndex : nat) : option (nat * A) :=
  if (length patch <? lastIndex)%nat then None
  else search m (bol_at patch lastIndex) (drop lastIndex patch) lastIndex.

(** [s.substring(a, b)] and [s.substring(a)] *)
Definition substring (s : jsstring) (a b : nat) : jsstring :=
  let a := (a `min` length s)%nat in
  let b := (b `min` length s)%nat in
  take (a `max` b - a `min` b) (drop (a `min` b) s).

Definition substring_from (s : jsstring) (a : nat) : jsstring :=
  drop (a `min` length s) s.

(** *** [splitPatch] *)

(** The [while] loop; [lastIndex] is the state of the pattern, [None] is
    fuel exhausted. *)
Fixpoint splitPatch_loop (fuel : nat) (patch : jsstring) (lastIndex : nat)
    (last : Z) (result : list jsstring) : option (Z * list jsstring) :=
  match fuel with
  | O => None
  | S fuel' =>
      match exec header_line_match patch lastIndex with
      | None => Some (last, result)
      | Some (index, len) =>
          if last =? -1 then
            splitPatch_loop fuel' patch (index + len) (Z.of_nat index) result
          else
            splitPatch_loop fuel' patch (index + len) (Z.of_nat index)
              (result ++ [substring patch (Z.to_nat last) index])
      end
  end.

Definition splitPatch (patch : option jsstring) : option (list jsstring) :=
  match patch with
  | None => Some []
  | Some patch =>
      '(last, result) ← splitPatch_loop (S (length patch)) patch 0 (-1) [];
      if negb (last =? -1)
      then Some (result ++ [substring_from patch (Z.to_nat last)])
      else Some result
  end.

(** The indices of [patch], in increasing order, that start a line which
    matches the header pattern: each index is tested on its own.  The
    head of [s] is at index [i]. *)
Fixpoint header_lines_from (bol : bool) (s : jsstring) (i : nat)
    : list nat :=
  (if bol && bool_decide (is_Some (header_line_match s)) then [i] else [])
  ++ match s with
     | [] => []
     | c :: s' => header_lines_from (is_line_terminator c) s' (S i)
     end.

Definition header_lines (patch : jsstring) : list nat :=
  header_lines_from true patch 0.

(** The header lines at or after index [lastIndex]. *)
Definition tail_lines (patch : jsstring) (lastIndex : nat) : list nat :=
  header_lines_from (bol_at patch lastIndex) (drop lastIndex patch) lastIndex.

(** The [while] loop of [splitPatch] run over a list of match indices. *)
Fixpoint run_matches (patch : jsstring) (ms : list nat) (last : Z)
    (result : list jsstring) : Z * list jsstring :=
  match ms with
  | [] => (last, result)
  | index :: ms' =>
      run_matches patch ms' (Z.of_nat index)
        (if last =? -1 then result
         else result ++ [substring patch (Z.to_nat last) index])
  end.

(** [lo ≤ m1 ≤ ... ≤ mk ≤ hi] *)
Fixpoint ascending (lo : nat) (ms : list nat) (hi : nat) : Prop :=
  match ms with
  | [] => (lo ≤ hi)%nat
  | m :: ms' => (lo ≤ m)%nat ∧ ascending m ms' hi
  end.

(** *** [patchStartEndLine] and [parsePatch] *)

Record Range := { startLine : Z; endLine : Z }.
Record HunkInfo := { oldHunk : Range; newHunk : Range }.

(** [parseInt] of a string of decimal digits: the integer that the
    digits write, which is the number of the code up to [2 ^ 53]. *)
Definition parseInt (ds : jsstring) : Z :=
  foldl (λ n c, 10 * n + (Z.of_N c - 48)) 0 ds.

(** The ranges are the numbers of the code when [oldBegin + oldDiff] and
    [newBegin + newDiff] are at most [2 ^ 53]; above, the code rounds the
    sums and the integers here do not. *)
Definition patchStartEndLine (patch : jsstring) : option HunkInfo :=
  match exec header_match patch 0 with
  | Some (_, (g, _)) =>
      let oldBegin := parseInt (group2 g) in
      let oldDiff := parseInt (group3 g) in
      let newBegin := parseInt (group4 g) in
      let newDiff := parseInt (group5 g) in
      Some {| oldHunk := {| startLine := oldBegin;
                            endLine := oldBegin + oldDiff - 1 |};
              newHunk := {| startLine := newBegin;
                            endLine := newBegin + newDiff - 1 |} |}
  | None => None
  end.

(** [s.split('\n')] *)
Fixpoint split_lines (s : jsstring) : list jsstring :=
  match s with
  | [] => [[]]
  | c :: s' =>
      if bool_decide (c = 10%N) then [] :: split_lines s'
      else match split_lines s' with
           | l :: ls => (c :: l) :: ls
           | [] => [[c]]
           end
  end.

(** [lines.join('\n')] *)
Fixpoint join_lines (lines : list jsstring) : jsstring :=
  match lines with
  | [] => []
  | [l] => l
  | l :: ls => l ++ 10%N :: join_lines ls
  end.

(** The text whose lines are the given ASCII literals. *)
Definition js_lines (lines : list string) : jsstring :=
  join_lines (js <$> lines).

(** [line.startsWith(c)] for a one-character [c]. *)
Definition startsWith (line : jsstring) (c : ascii) : bool :=
  match line with
  | d :: _ => bool_decide (d = N_of_ascii c)
  | [] => false
  end.

(** [patch.split('\n').slice(1)] with a last empty line removed. *)
Definition body_lines (patch : jsstring) : list jsstring :=
  let lines := drop 1 (split_lines patch) in
  if bool_decide (last lines = Some []) then removelast lines else lines.

Record Hunks := { oldHunkText : jsstring; newHunkText : jsstring }.

(** The state of the [for] loop of [parsePatch]. *)
Record Render := {
  currentLine : Z;
  newLine : Z;
  oldHunkLines : list jsstring;
  newHunkLines : list jsstring
}.

Definition skipStart : Z := 3.
Definition skipEnd : Z := 3.

(** One turn of the loop.  [newLine + 1] is [newLine++], which it equals
    while the counter is below [2 ^ 53]; from there on the counter of the
    code no longer moves. *)
Definition render_step (removalOnly : bool) (nlines : Z) (st : Render)
    (line : jsstring) : Render :=
  let currentLine := currentLine st + 1 in
  if startsWith line "-" then
    {| currentLine := currentLine;
       newLine := newLine st;
       oldHunkLines := oldHunkLines st ++ [drop 1 line];
       newHunkLines := newHunkLines st |}
  else if startsWith line "+" then
    {| currentLine := currentLine;
       newLine := newLine st + 1;
       oldHunkLines := oldHunkLines st;
       newHunkLines :=
         newHunkLines st
         ++ [js_of_Z (newLine st) ++ js ": " ++ drop 1 line] |}
  else
    {| currentLine := currentLine;
       newLine := newLine st + 1;
       oldHunkLines := oldHunkLines st ++ [line];
       newHunkLines :=
         newHunkLines st
         ++ [if removalOnly
                || ((skipStart <? currentLine)
                    && (currentLine <=? nlines - skipEnd))
             then js_of_Z (newLine st) ++ js ": " ++ line
             else line] |}.

Definition parsePatch (patch : jsstring) : option Hunks :=
  match patchStartEndLine patch with
  | None => None
  | Some hunkInfo =>
      let lines := body_lines patch in
      let removalOnly := negb (existsb (λ line, startsWith line "+") lines) in
      let st :=
        foldl (render_step removalOnly (Z.of_nat (length lines)))
          {| currentLine := 0;
             newLine := startLine (newHunk hunkInfo);
             oldHunkLines := [];
             newHunkLines := [] |}
          lines in
      Some {| oldHunkText := join_lines (oldHunkLines st);
              newHunkText := join_lines (newHunkLines st) |}
  end.

(** The rendering of a hunk as the specification words it, line by line.
    The body line at index [k] (from 0) has position [k + 1]. *)

Inductive LineKind := Removed | Added | Context.

#[global] Instance LineKind_eq_dec : EqDecision LineKind.
Proof. solve_decision. Defined.




Definition numbered (n : Z) (content : jsstring) : jsstring :=
  js_of_Z n ++ js ": " ++ content.







(** *** The comment-to-patch mapper of [parseReview] *)

(** An element of [patches]: [[startLine, endLine, text]]. *)
Abbreviation Patch := (Z * Z * jsstring)%type.

Module Rev.
Record Review := mk { startLine : Z; endLine : Z; comment : jsstring }.
End Rev.
Abbreviation Review := Rev.Review.

Record Mapping := {
  withinPatch : bool;
  bestPatchStartLine : Z;
  bestPatchEndLine : Z
}.

(** The [for] loop of [findBestPatchMapping] with its [break].  The
    lengths are exact for line numbers in [safe_line]; for larger ones
    the code compares rounded lengths, which can be equal where the
    integers here are not. *)
Fixpoint findBest_loop (reviewStartLine reviewEndLine : Z)
    (patches : list Patch) (withinPatch : bool)
    (bestPatchStartLine bestPatchEndLine maxIntersection : Z) : Mapping :=
  match patches with
  | [] =>
      {| withinPatch := withinPatch;
         bestPatchStartLine := bestPatchStartLine;
         bestPatchEndLine := bestPatchEndLine |}
  | (startLine, endLine, _) :: patches' =>
      let intersectionStart := Z.max reviewStartLine startLine in
      let intersectionEnd := Z.min reviewEndLine endLine in
      let intersectionLength :=
        Z.max 0 (intersectionEnd - intersectionStart + 1) in
      if intersectionLength >? maxIntersection then
        let withinPatch :=
          intersectionLength =? reviewEndLine - reviewStartLine + 1 in
        if withinPatch then
          {| withinPatch := withinPatch;
             bestPatchStartLine := startLine;
             bestPatchEndLine := endLine |}
        else
          findBest_loop reviewStartLine reviewEndLine patches' withinPatch
            startLine endLine intersectionLength
      else if withinPatch then
        {| withinPatch := withinPatch;
           bestPatchStartLine := bestPatchStartLine;
           bestPatchEndLine := bestPatchEndLine |}
      else
        findBest_loop reviewStartLine reviewEndLine patches' withinPatch
          bestPatchStartLine bestPatchEndLine maxIntersection
  end.

Definition findBestPatchMapping (patches : list Patch)
    (reviewStartLine reviewEndLine : Z) : Mapping :=
  findBest_loop reviewStartLine reviewEndLine patches false (-1) (-1) 0.

Definition original_lines (review : Review) : jsstring :=
  js " Original lines [" ++ js_of_Z (Rev.startLine review) ++ js "-"
  ++ js_of_Z (Rev.endLine review) ++ js "]" ++ [10; 10]%N.

Definition note_greatest_overlap (review : Review) : jsstring :=
  js "> Note: This review was outside of the patch, so it was mapped to the patch with the greatest overlap."
  ++ original_lines review.

Definition note_no_overlap (review : Review) : jsstring :=
  js "> Note: This review was outside of the patch, but no patch was found that overlapped with it."
  ++ original_lines review.

(** [mapReviewToPatch(review)] returns the review it has updated in
    place; reading [patches[0][0]] throws when [patches] is empty. *)
Definition mapReviewToPatch (patches : list Patch) (review : Review)
    : Exn + Review :=
  let m :=
    findBestPatchMapping patches (Rev.startLine review) (Rev.endLine review) in
  if negb (withinPatch m) then
    if negb (bestPatchStartLine m =? -1) && negb (bestPatchEndLine m =? -1)
    then
      inr {| Rev.comment :=
               note_greatest_overlap review ++ Rev.comment review;
             Rev.startLine := bestPatchStartLine m;
             Rev.endLine := bestPatchEndLine m |}
    else
      match patches with
      | [] => inl TypeError
      | (startLine0, endLine0, _) :: _ =>
          inr {| Rev.comment := note_no_overlap review ++ Rev.comment review;
                 Rev.startLine := startLine0;
                 Rev.endLine := endLine0 |}
      end
  else inr review.

(** The mapper as the specification words it. *)

Definition intersection (startLine endLine : Z) (p : Patch) : Z :=
  Z.max 0 (Z.min endLine p.1.2 - Z.max startLine p.1.1 + 1).

Definition max_intersection (startLine endLine : Z) (patches : list Patch)
    : Z :=
  foldr (λ p acc, Z.max (intersection startLine endLine p) acc) 0 patches.

(** The first hunk whose intersection with the range is maximal. *)
Definition first_maximal (startLine endLine : Z) (patches : list Patch)
    : option (nat * Patch) :=
  list_find
    (λ p, intersection startLine endLine p
          = max_intersection startLine endLine patches)
    patches.

Definition remapped (note : jsstring) (p : Patch) (review : Review)
    : Review :=
  {| Rev.startLine := p.1.1; Rev.endLine := p.1.2;
     Rev.comment := note ++ Rev.comment review |}.

(** [positive] tells whether the "unchanged" clause asks for a positive
    intersection; the specification's sentence does not. *)
Definition mapper_spec (positive : bool) (patches : list Patch)
    (review : Review) : Prop :=
  let s := Rev.startLine review in
  let e := Rev.endLine review in
  let full p :=
    intersection s e p = e - s + 1
    ∧ (positive = true → 0 < intersection s e p) in
  ∃ r, mapReviewToPatch patches review = inr r
    ∧ ((∃ p, p ∈ patches ∧ full p) → r = review)
    ∧ ((¬ ∃ p, p ∈ patches ∧ full p) →
        0 < max_intersection s e patches →
        ∃ i p, first_maximal s e patches = Some (i, p)
               ∧ r = remapped (note_greatest_overlap review) p review)
    ∧ (max_intersection s e patches = 0 →
        ∃ p, head patches = Some p
             ∧ r = remapped (note_no_overlap review) p review).

(** *** The packer of [processReviews] *)

Section Packer.

(** The tokenizer, the request budget [options.heavyTokenLimits
    .requestTokens], and the comment chain the commenter returns for the
    lines of a hunk (the empty string when there is none or the call
    fails). *)
Variable getTokenCount : jsstring → Z.
Variable requestTokens : Z.
Variable getCommentChainForPatch : Z → Z → jsstring.

Definition comment_chain_block (commentChain : jsstring) : jsstring :=
  [10%N] ++ js "---comment_chains---" ++ [10%N] ++ js "```" ++ [10%N]
  ++ commentChain ++ [10%N] ++ js "```" ++ [10%N].

Definition end_change_section : jsstring :=
  [10%N] ++ js "---end_change_section---" ++ [10%N].

(** The [for] loop of [packPatchesIntoInputs]; [ins_patches] is the field
    [ins.patches], which the loop appends to. *)
Fixpoint pack_loop (patches : list Patch) (patchesToPack : Z)
    (tokens patchesPacked : Z) (ins_patches : jsstring) : Z * jsstring :=
  match patches with
  | [] => (patchesPacked, ins_patches)
  | (startLine, endLine, patch) :: patches' =>
      if patchesPacked >=? patchesToPack then (patchesPacked, ins_patches)
      else
        let patchesPacked := patchesPacked + 1 in
        let commentChain := getCommentChainForPatch startLine endLine in
        let commentChainTokens := getTokenCount commentChain in
        let tokens :=
          if tokens + commentChainTokens >? requestTokens then tokens
          else tokens + commentChainTokens in
        let ins_patches := ins_patches ++ [10%N] ++ patch ++ [10%N] in
        let ins_patches :=
          if negb (bool_decide (commentChain = []))
          then ins_patches ++ comment_chain_block commentChain
          else ins_patches in
        let ins_patches := ins_patches ++ end_change_section in
        pack_loop patches' patchesToPack tokens patchesPacked ins_patches
  end.

(** [pull_request] is [context.payload.pull_request]; the result is the
    returned count and the final [ins.patches]. *)
Definition packPatchesIntoInputs (pull_request : option Z)
    (ins_patches : jsstring) (patches : list Patch) (patchesToPack : Z)
    (baseTokens : Z) : Z * jsstring :=
  match pull_request with
  | None => (0, ins_patches)
  | Some _ => pack_loop patches patchesToPack baseTokens 0 ins_patches
  end.

End Packer.

(** Whether [needle] occurs in [s] ([s.includes(needle)]). *)
Fixpoint includes (s needle : jsstring) : bool :=
  match lit needle s with
  | Some _ => true
  | None => match s with [] => false | _ :: s' => includes s' needle end
  end.

(** A code unit that [.] matches. *)
Definition nonterm (c : N) : bool := negb (is_line_terminator c).


(** The matches [ms], each at or after the end of the one before, the
    first at or after [lo]. *)
Fixpoint chain (patch : jsstring) (lo : nat) (ms : list nat) : Prop :=
  match ms with
  | [] => True
  | j :: ms' =>
      (lo ≤ j)%nat
      ∧ ∃ len, header_line_match (drop j patch) = Some len
               ∧ (j + len ≤ length patch)%nat
               ∧ chain patch (j + len) ms'
  end.

(** *** The budget of [processReviews] *)

Section Budget.

Variable getTokenCount : jsstring → Z.
Variable requestTokens : Z.

(** The [for] loop of [calculatePatchesToPack] with its [break]. *)
Fixpoint calculate_loop (patches : list Patch) (tokens patchesToPack : Z)
    : Z :=
  match patches with
  | [] => patchesToPack
  | (_, _, patch) :: patches' =>
      let patchTokens := getTokenCount patch in
      if tokens + patchTokens >? requestTokens then patchesToPack
      else calculate_loop patches' (tokens + patchTokens) (patchesToPack + 1)
  end.

Definition calculatePatchesToPack (patches : list Patch) (baseTokens : Z)
    : Z :=
  calculate_loop patches baseTokens 0.

(** The tokens of a list of patches. *)
Definition patch_tokens (patches : list Patch) : Z :=
  foldr (λ p acc, getTokenCount p.2 + acc) 0 patches.

End Budget.

(** What [packPatchesIntoInputs] appends for one patch. *)
Definition change_section (getCommentChainForPatch : Z → Z → jsstring)
    (p : Patch) : jsstring :=
  let commentChain := getCommentChainForPatch p.1.1 p.1.2 in
  [10%N] ++ p.2 ++ [10%N]
  ++ (if bool_decide (commentChain = []) then []
      else comment_chain_block commentChain)
  ++ end_change_section.

(** *** [parsePatchesFromFile] *)

Definition hunksStr (hunks : Hunks) : jsstring :=
  js_lines [""; "---new_hunk---"; "```"; ""] ++ newHunkText hunks
  ++ js_lines [""; "```"; ""; "---old_hunk---"; "```"; ""]
  ++ oldHunkText hunks ++ js_lines [""; "```"; ""].

(** The body of the [for] loop: [None] is [continue]. *)
Definition patch_of_hunk (patch : jsstring) : option Patch :=
  match patchStartEndLine patch with
  | None => None
  | Some patchLines =>
      match parsePatch patch with
      | None => None
      | Some hunks =>
          Some (startLine (newHunk patchLines), endLine (newHunk patchLines),
                hunksStr hunks)
      end
  end.

(** [parsePatchesFromFile(file)], from [file.patch]; [None] only when
    [splitPatch] has run out of fuel. *)
Definition parsePatchesFromFile (patch : option jsstring)
    : option (list Patch) :=
  match splitPatch patch with
  | None => None
  | Some hunks => Some (omap patch_of_hunk hunks)
  end.


(** *** The line loop of [parseReview] *)

(** [\s], which is also what [trim] removes. *)
Definition is_space (c : N) : bool :=
  bool_decide
    (c = 9 ∨ c = 10 ∨ c = 11 ∨ c = 12 ∨ c = 13 ∨ c = 32 ∨ c = 160
     ∨ c = 5760 ∨ (8192 ≤ c ≤ 8202) ∨ c = 8232 ∨ c = 8233 ∨ c = 8239
     ∨ c = 8287 ∨ c = 12288 ∨ c = 65279)%N.

Definition trim (s : jsstring) : jsstring :=
  reverse (drop_while is_space (reverse (drop_while is_space s))).

(** [(\d+)-(\d+):\s*$] at the head of [s]: the two groups. *)
Definition range_tail (s : jsstring) : option (jsstring * jsstring) :=
  '(g1, s) ← digits1 s;
  s ← lit (js "-") s;
  '(g2, s) ← digits1 s;
  s ← lit (js ":") s;
  if forallb is_space s then Some (g1, g2) else None.

(** [lineNumberRangeRegex.exec(line)]: the leftmost match of
    [(?:^|\s)(\d+)-(\d+):\s*$]; [start] tells whether the head of [s] is
    the start of the line.  At each index [^] is tried before [\s]. *)
Fixpoint range_exec (start : bool) (s : jsstring)
    : option (jsstring * jsstring) :=
  match (if start then range_tail s else None) with
  | Some g => Some g
  | None =>
      match s with
      | [] => None
      | c :: s' =>
          match (if is_space c then range_tail s' else None) with
          | Some g => Some g
          | None => range_exec false s'
          end
      end
  end.

Definition commentSeparator : jsstring := js "---".

(** [storeReview()]: the reviews after the call; mapping the review may
    throw. *)
Definition storeReview (patches : list Patch)
    (currentStartLine currentEndLine : option Z) (currentComment : jsstring)
    (reviews : list Review) : Exn + list Review :=
  match currentStartLine, currentEndLine with
  | Some s, Some e =>
      match mapReviewToPatch patches (Rev.mk s e currentComment) with
      | inl exn => inl exn
      | inr review => inr (reviews ++ [review])
      end
  | _, _ => inr reviews
  end.

(** The [for] loop over the lines of the sanitized response, and the
    last [storeReview()]. *)
Fixpoint parseReview_lines (patches : list Patch) (lines : list jsstring)
    (currentStartLine currentEndLine : option Z) (currentComment : jsstring)
    (reviews : list Review) : Exn + list Review :=
  match lines with
  | [] =>
      storeReview patches currentStartLine currentEndLine currentComment
        reviews
  | line :: lines' =>
      match range_exec true line with
      | Some (g1, g2) =>
          match storeReview patches currentStartLine currentEndLine
                  currentComment reviews with
          | inl exn => inl exn
          | inr reviews =>
              parseReview_lines patches lines' (Some (parseInt g1))
                (Some (parseInt g2)) [] reviews
          end
      | None =>
          if bool_decide (trim line = commentSeparator) then
            match storeReview patches currentStartLine currentEndLine
                    currentComment reviews with
            | inl exn => inl exn
            | inr reviews => parseReview_lines patches lines' None None [] reviews
            end
          else if bool_decide (is_Some currentStartLine
                               ∧ is_Some currentEndLine) then
            parseReview_lines patches lines' currentStartLine currentEndLine
              (currentComment ++ line ++ [10%N]) reviews
          else
            parseReview_lines patches lines' currentStartLine currentEndLine
              currentComment reviews
      end
  end.

(** The lines that open a review. *)
Definition range_lines (lines : list jsstring) : list jsstring :=
  filter (λ line, is_Some (range_exec true line)) lines.

(** The range of [r] lies within the new range of [p]. *)
Definition within_patch (r : Review) (p : Patch) : Prop :=
  p.1.1 ≤ Rev.startLine r ∧ Rev.endLine r ≤ p.1.2.

(** The range of [r] lies within some hunk of [patches]. *)
Definition placed (patches : list Patch) (r : Review) : Prop :=
  ∃ p, p ∈ patches ∧ within_patch r p.

(** *** [sanitizeCodeBlock]'s replacement

    [codeBlock.replace(/^ *(\d+): /gm, '')]: every match is removed. *)

(** [ *(\d+): ] at the head of [s]: the length of the match. *)
Definition number_prefix (s : jsstring) : option nat :=
  let s1 := drop_while (λ c, bool_decide (c = 32%N)) s in
  '(_, s2) ← digits1 s1;
  s3 ← lit (js ": ") s2;
  Some (length s - length s3)%nat.

(** [skip] counts the code units of the current match that are still to
    be dropped; [bol] tells whether [^] matches at the head of [s]. *)
Fixpoint strip_numbers (bol : bool) (skip : nat) (s : jsstring) : jsstring :=
  match s with
  | [] => []
  | c :: s' =>
      match skip with
      | S n => strip_numbers (is_line_terminator c) n s'
      | O =>
          match (if bol then number_prefix s else None) with
          | Some (S n) => strip_numbers (is_line_terminator c) n s'
          | _ => c :: strip_numbers (is_line_terminator c) O s'
          end
      end
  end.

Definition remove_line_numbers (codeBlock : jsstring) : jsstring :=
  strip_numbers true 0 codeBlock.

(** A line without the match of [ *(\d+): ] at its start, if there is
    one. *)
Definition strip_line (line : jsstring) : jsstring :=
  match number_prefix line with
  | Some n => drop n line
  | None => line
  end.

End Review.

(** ** Resume helper ([src/resume-helper.ts]) *)

Module ResumeHelper.
Import ReviewState.

Section Files.

(** The elements of [files] are objects with a [filename]. *)
Context {A : Type}.
Variable filename : A → jsstring.

(** The two [info] calls only log. *)
Definition filterFilesForResume (files : list A)
    (reviewState : option ReviewState) (phase : Phase) : list A :=
  match reviewState with
  | None => files
  | Some reviewState =>
      let filesToProcess := getFilesToProcess reviewState in
      let filenamesToProcess : gset jsstring :=
        list_to_set (File.filename <$> filesToProcess) in
      filter (λ f, filename f ∈ filenamesToProcess) files
  end.

End Files.

Definition shouldResumeReview (enableResume : bool)
    (reviewState : option ReviewState) : bool :=
  if negb enableResume then false
  else
    match reviewState with
    | None => false
    | Some reviewState =>
        let filesToProcess := getFilesToProcess reviewState in
        (0 <? length filesToProcess)%nat
    end.

End ResumeHelper.

(** ** Token limits ([src/limits.ts]) *)

Module Limits.

Record TokenLimits := {
  maxTokens : Z;
  requestTokens : Z;
  responseTokens : Z;
  knowledgeCutOff : jsstring
}.

(** [model === name] for one of the listed names. *)
Definition is_one_of (model : jsstring) (names : list string) : bool :=
  existsb (λ name, bool_decide (model = js name)) names.

(** The branches of the constructor: [maxTokens], [responseTokens] and
    [knowledgeCutOff]. *)
Definition limits_of (model : jsstring) : Z * Z * string :=
  if is_one_of model
       ["claude-opus-4"; "claude-opus-4-20250514"; "claude-opus-4.5"]
  then (200000, 4096, "2024-10-01")
  else if is_one_of model
       ["claude-sonnet-4"; "claude-sonnet-4-20250514"; "claude-sonnet-4.5";
        "claude-3-5-sonnet-20241022"; "claude-3-5-sonnet-20240620";
        "claude-3-5-haiku-20241022"; "claude-3-haiku-20240307"]
  then (200000, 8192, "2024-10-01")
  else if is_one_of model ["gpt-4o"; "chatgpt-4o-latest"; "gpt-4o-mini"]
  then (128000, 16384, "2024-10-01")
  else if is_one_of model ["o1-preview"]
  then (128000, 32768, "2024-10-01")
  else if is_one_of model ["o1-mini"]
  then (128000, 65536, "2024-10-01")
  else if is_one_of model
       ["gpt-4-turbo"; "gpt-4-turbo-2024-04-09"; "gpt-4-turbo-preview";
        "gpt-4-0125-preview"; "gpt-4-1106-preview";
        "gpt-4-turbo-vision-preview"; "gpt-4-vision-preview";
        "gpt-4-1106-vision-preview"]
  then (128000, 4096, "2024-04-01")
  else if is_one_of model ["gpt-4-32k"]
  then (32600, 4000, "2021-09-01")
  else if is_one_of model ["gpt-4"]
  then (8000, 2000, "2021-09-01")
  else if is_one_of model ["gpt-3.5-turbo-16k"]
  then (16300, 3000, "2021-09-01")
  else if bool_decide (is_Some (Review.lit (js "gpt-3.5-turbo") model))
          || is_one_of model ["gpt-3.5-turbo-0125"; "gpt-3.5-turbo-1106"]
  then (16385, 4096, "2021-09-01")
  else (4000, 1000, "2021-09-01").

(** [new TokenLimits(model)]; without an argument the model is
    ['gpt-3.5-turbo']. *)
Definition new_TokenLimits (model : option jsstring) : TokenLimits :=
  let model := default (js "gpt-3.5-turbo") model in
  let '(maxTokens, responseTokens, knowledgeCutOff) := limits_of model in
  {| maxTokens := maxTokens;
     responseTokens := responseTokens;
     knowledgeCutOff := js knowledgeCutOff;
     requestTokens := maxTokens - responseTokens - 100 |}.

End Limits.

(** * Properties *)

(** ** Review state *)

Section ReviewStateProperties.
Import ReviewState.

Lemma findIndex_bounds {A} (p : A → bool) (l : list A) :
  findIndex p l = -1 ∨ 0 ≤ findIndex p l < Z.of_nat (length l).
Proof.
  induction l as [|x l IH]; simpl; [by left|].
  destruct (p x); [right; lia|].
  destruct IH as [->| IH]; [by left|].
  right. destruct (Z.eqb_spec (findIndex p l) (-1)); lia.
Qed.

Lemma findIndex_found {A} (p : A → bool) (l : list A) :
  findIndex p l ≠ -1 →
  ∃ x, l !! Z.to_nat (findIndex p l) = Some x ∧ p x = true
       ∧ ∀ j y, (j < Z.to_nat (findIndex p l))%nat →
                l !! j = Some y → p y = false.
Proof.
  induction l as [|x l IH]; simpl; [done|].
  destruct (p x) eqn:Hx.
  - intros _. exists x. repeat split; [done|]. intros j y Hj. simpl in Hj. lia.
  - destruct (Z.eqb_spec (findIndex p l) (-1)) as [|Hne]; [done|].
    intros _. destruct (IH Hne) as (y & Hy & Hp & Hfirst).
    pose proof (findIndex_bounds p l) as [?|Hb]; [done|].
    replace (Z.to_nat (findIndex p l + 1)) with (S (Z.to_nat (findIndex p l)))
      by lia.
    exists y. repeat split; [done..|].
    intros [|j] z Hj Hz; simpl in Hz; [by simplify_eq|].
    apply (Hfirst j); [lia|done].
Qed.

Lemma findIndex_present {A} (p : A → bool) (l : list A) x :
  x ∈ l → p x = true → findIndex p l ≠ -1.
Proof.
  induction 1 as [x l|x y l Hin IH]; simpl; intros Hp.
  - by rewrite Hp.
  - destruct (p y); [done|].
    destruct (Z.eqb_spec (findIndex p l) (-1)) as [He|]; [by apply IH in Hp|].
    pose proof (findIndex_bounds p l). lia.
Qed.

Lemma count_status_nonneg p l : 0 ≤ count_status p l.
Proof. unfold count_status. lia. Qed.

Lemma count_status_cons p f l :
  count_status p (f :: l) = b2z (p (File.status f)) + count_status p l.
Proof.
  unfold count_status. rewrite filter_cons.
  destruct (decide _) as [Hp|Hp]; destruct (p (File.status f));
    simpl in *; try done; lia.
Qed.

Lemma count_status_insert p l i old new :
  l !! i = Some old →
  count_status p (<[i:=new]> l)
  = count_status p l - b2z (p (File.status old)) + b2z (p (File.status new)).
Proof.
  revert i. induction l as [|f l IH]; intros [|i] Hi; simplify_eq/=.
  - rewrite !count_status_cons. lia.
  - rewrite !count_status_cons, (IH i Hi). lia.
Qed.

Lemma count_status_pending p now (names : list jsstring) :
  p pending = false →
  count_status p ((λ f, File.mk f pending None now None None) <$> names) = 0.
Proof.
  intros Hp. induction names as [|n names IH]; [done|].
  rewrite fmap_cons, count_status_cons, IH. simpl. by rewrite Hp.
Qed.

(** What a successful [updateFileStatus] did: it rewrote the first entry
    named [filename] and moved the counters by the deltas. *)
Lemma updateFileStatus_inr now s filename status options s' :
  updateFileStatus now s filename status options = inr s' →
  ∃ i old,
    files s !! i = Some old
    ∧ File.filename old = filename
    ∧ (∀ j f, (j < i)%nat → files s !! j = Some f →
              File.filename f ≠ filename)
    ∧ s' = {| version := version s; startedAt := startedAt s;
              updatedAt := now; commitId := commitId s;
              totalFiles := totalFiles s;
              completedFiles :=
                Z.max 0 (completedFiles s
                         + completedDelta_of (File.status old) status);
              failedFiles :=
                Z.max 0 (failedFiles s
                         + failedDelta_of (File.status old) status);
              skippedFiles :=
                Z.max 0 (skippedFiles s
                         + skippedDelta_of (File.status old) status);
              phase := phase s;
              files :=
                <[i := {| File.filename := filename;
                          File.status := status;
                          File.updatedAt := now;
                          File.error := options ≫= opt_error;
                          File.skipConfidence :=
                            options ≫= opt_skipConfidence;
                          File.skipReason := options ≫= opt_skipReason |}]>
                  (files s);
              lastError := lastError s |}.
Proof.
  unfold updateFileStatus.
  set (p := λ f, bool_decide (File.filename f = filename)).
  destruct (Z.eqb_spec (findIndex p (files s)) (-1)) as [|Hne]; [done|].
  destruct (findIndex_found p (files s) Hne) as (old & Hold & Hp & Hfirst).
  rewrite Hold. intros [= <-].
  apply bool_decide_eq_true in Hp.
  exists (Z.to_nat (findIndex p (files s))), old.
  repeat split; [done..| |by rewrite Hp].
  intros j f Hj Hf. specialize (Hfirst j f Hj Hf).
  by apply bool_decide_eq_false in Hfirst.
Qed.

Lemma updateFileStatus_present now s filename status options :
  filename ∈ File.filename <$> files s →
  ∃ s', updateFileStatus now s filename status options = inr s'.
Proof.
  intros (f & -> & Hf)%list_elem_of_fmap. unfold updateFileStatus.
  set (p := λ f0, bool_decide (File.filename f0 = File.filename f)).
  assert (findIndex p (files s) ≠ -1) as Hne.
  { apply (findIndex_present p _ f Hf). by apply bool_decide_eq_true. }
  destruct (Z.eqb_spec (findIndex p (files s)) (-1)); [done|].
  destruct (findIndex_found p (files s) Hne) as (old & -> & _). eauto.
Qed.

Lemma deltas_exact old new :
  completedDelta_of old new = b2z (is_completed new) - b2z (is_completed old)
  ∧ failedDelta_of old new = b2z (is_failed new) - b2z (is_failed old)
  ∧ skippedDelta_of old new = b2z (is_skipped new) - b2z (is_skipped old).
Proof. by destruct old, new. Qed.

Lemma counters_exact_update now s filename status options s' :
  counters_exact s →
  updateFileStatus now s filename status options = inr s' →
  counters_exact s'.
Proof.
  intros (Hc & Hf & Hs) (i & old & Hi & _ & _ & ->)%updateFileStatus_inr.
  destruct (deltas_exact (File.status old) status) as (-> & -> & ->).
  unfold counters_exact; simpl.
  rewrite !(count_status_insert _ _ _ _ _ Hi), Hc, Hf, Hs. simpl.
  pose proof (count_status_nonneg is_completed (files s)).
  pose proof (count_status_nonneg is_failed (files s)).
  pose proof (count_status_nonneg is_skipped (files s)).
  assert (∀ p, b2z (p (File.status old)) ≤ count_status p (files s)) as Hle.
  { intros p. apply list_elem_of_split_length in Hi as (l1 & l2 & -> & _).
    clear. induction l1 as [|f l1 IH]; simpl.
    - rewrite count_status_cons. pose proof (count_status_nonneg p l2). lia.
    - rewrite count_status_cons. destruct (p (File.status f)); simpl; lia. }
  pose proof (Hle is_completed). pose proof (Hle is_failed).
  pose proof (Hle is_skipped).
  assert (∀ b, 0 ≤ b2z b) as Hb by (intros []; simpl; lia).
  pose proof (Hb (is_completed status)). pose proof (Hb (is_failed status)).
  pose proof (Hb (is_skipped status)).
  repeat split; lia.
Qed.

(** C3. In every state reachable from [createReviewState] through
    [updateFileStatus] calls that succeed, [updatePhase] and
    [recordError], [completedFiles] is the number of files whose status is
    [reviewed] or [skipped], [failedFiles] the number of [failed] files,
    [skippedFiles] the number of [skipped] files, and no counter is
    negative. *)
Theorem reachable_counters_exact commit names s :
  reachable commit names s →
  completedFiles s = count_status is_completed (files s)
  ∧ failedFiles s = count_status is_failed (files s)
  ∧ skippedFiles s = count_status is_skipped (files s)
  ∧ 0 ≤ completedFiles s ∧ 0 ≤ failedFiles s ∧ 0 ≤ skippedFiles s.
Proof.
  intros Hr.
  assert (counters_exact s) as (Hc & Hf & Hs).
  { induction Hr as [now|now s fn st o s' _ IH Hu|now s ph _ IH|now now' s e ty _ IH];
      [|by eapply counters_exact_update|done..].
    unfold counters_exact; simpl. by rewrite !count_status_pending. }
  rewrite Hc, Hf, Hs. repeat split; apply count_status_nonneg.
Qed.

Lemma reachable_counters_exact_witness :
  let names := [js "a.ts"; js "b.ts"] in
  let s0 := createReviewState (js "t0") (js "abc123") names in
  match updateFileStatus (js "t1") s0 (js "a.ts") skipped None with
  | inr s1 =>
      match updateFileStatus (js "t2") s1 (js "b.ts") failed None with
      | inr s2 =>
          reachable (js "abc123") names s2
          ∧ completedFiles s2 = count_status is_completed (files s2)
          ∧ failedFiles s2 = count_status is_failed (files s2)
          ∧ skippedFiles s2 = count_status is_skipped (files s2)
          ∧ 0 ≤ completedFiles s2 ∧ 0 ≤ failedFiles s2
          ∧ 0 ≤ skippedFiles s2
      | inl _ => False
      end
  | inl _ => False
  end.
Proof.
  intros names s0.
  destruct (updateFileStatus (js "t1") s0 (js "a.ts") skipped None)
    as [e|s1] eqn:H1; [by vm_compute in H1|].
  destruct (updateFileStatus (js "t2") s1 (js "b.ts") failed None)
    as [e|s2] eqn:H2.
  { vm_compute in H1. injection H1 as <-. by vm_compute in H2. }
  assert (∀ P Q : Prop, P → (P → Q) → P ∧ Q) as Hand by tauto.
  apply Hand.
  - eapply reach_updateFileStatus; [|exact H2].
    eapply reach_updateFileStatus; [apply reach_create|exact H1].
  - apply reachable_counters_exact.
Defined.

(** C9, as the code has it. [updatePhase] has no guard: the phase of the
    result is the requested phase, whatever the phase was; [updatedAt] is
    the time of the call and every other field is kept. *)
Theorem updatePhase_sets_phase now s ph :
  phase (updatePhase now s ph) = ph
  ∧ updatedAt (updatePhase now s ph) = now
  ∧ version (updatePhase now s ph) = version s
  ∧ startedAt (updatePhase now s ph) = startedAt s
  ∧ commitId (updatePhase now s ph) = commitId s
  ∧ totalFiles (updatePhase now s ph) = totalFiles s
  ∧ completedFiles (updatePhase now s ph) = completedFiles s
  ∧ failedFiles (updatePhase now s ph) = failedFiles s
  ∧ skippedFiles (updatePhase now s ph) = skippedFiles s
  ∧ files (updatePhase now s ph) = files s
  ∧ lastError (updatePhase now s ph) = lastError s.
Proof. done. Qed.

(** C9 fails as stated: a state in phase [reviewing] is taken back to
    [summarizing]. *)
Lemma updatePhase_backward_counterexample :
  let s :=
    updatePhase (js "t1")
      (createReviewState (js "t0") (js "abc123") [js "a.ts"])
      phase_reviewing in
  phase s = phase_reviewing
  ∧ phase (updatePhase (js "t2") s phase_summarizing) = phase_summarizing.
Proof. done. Qed.

(** C10. For a filename present in the state, [updateFileStatus] succeeds
    and rewrites one entry, the first with that filename: there it keeps
    the filename, sets the status and the time, and overwrites [error],
    [skipConfidence] and [skipReason] with the options (nothing when an
    option is not supplied).  Every other entry, the length and order of
    the list, and [version], [startedAt], [commitId], [totalFiles],
    [phase] and [lastError] are unchanged; [updatedAt] is the time of the
    call. *)
Theorem updateFileStatus_frame now s filename status options :
  filename ∈ File.filename <$> files s →
  ∃ s' i old,
    updateFileStatus now s filename status options = inr s'
    ∧ files s !! i = Some old
    ∧ File.filename old = filename
    ∧ (∀ j f, (j < i)%nat → files s !! j = Some f →
              File.filename f ≠ filename)
    ∧ files s' !! i = Some (updated_entry now filename status options)
    ∧ (∀ j, j ≠ i → files s' !! j = files s !! j)
    ∧ File.filename <$> files s' = File.filename <$> files s
    ∧ version s' = version s
    ∧ startedAt s' = startedAt s
    ∧ commitId s' = commitId s
    ∧ totalFiles s' = totalFiles s
    ∧ phase s' = phase s
    ∧ lastError s' = lastError s
    ∧ updatedAt s' = now.
Proof.
  intros Hin.
  destruct (updateFileStatus_present now s filename status options Hin)
    as [s' Hs'].
  destruct (updateFileStatus_inr _ _ _ _ _ _ Hs')
    as (i & old & Hi & Hname & Hfirst & ->).
  eexists _, i, old. split; [exact Hs'|]. simpl.
  split; [done|]. split; [done|]. split; [done|].
  split; [apply list_lookup_insert_eq; by eapply lookup_lt_Some|].
  split; [intros j Hj; by apply list_lookup_insert_ne|].
  split; [|done].
  rewrite list_fmap_insert. simpl. apply list_insert_id.
  by rewrite list_lookup_fmap, Hi, <-Hname.
Qed.

Lemma updateFileStatus_frame_witness :
  let s :=
    createReviewState (js "t0") (js "abc123") [js "a.ts"; js "b.ts"] in
  js "b.ts" ∈ File.filename <$> files s
  ∧ ∃ s' i old,
      updateFileStatus (js "t1") s (js "b.ts") failed None = inr s'
      ∧ files s !! i = Some old
      ∧ File.filename old = js "b.ts"
      ∧ (∀ j f, (j < i)%nat → files s !! j = Some f →
                File.filename f ≠ js "b.ts")
      ∧ files s' !! i = Some (updated_entry (js "t1") (js "b.ts") failed None)
      ∧ (∀ j, j ≠ i → files s' !! j = files s !! j)
      ∧ File.filename <$> files s' = File.filename <$> files s
      ∧ version s' = version s
      ∧ startedAt s' = startedAt s
      ∧ commitId s' = commitId s
      ∧ totalFiles s' = totalFiles s
      ∧ phase s' = phase s
      ∧ lastError s' = lastError s
      ∧ updatedAt s' = js "t1".
Proof.
  assert (∀ P Q : Prop, P → (P → Q) → P ∧ Q) as Hand by tauto.
  apply Hand.
  - simpl. apply list_elem_of_further, list_elem_of_here.
  - apply updateFileStatus_frame.
Defined.

Lemma isSameReview_Some a b :
  isSameReview (Some a) (Some b) = true
  ↔ commitId a = commitId b
    ∧ length (files a) = length (files b)
    ∧ filename_set a ⊆ filename_set b.
Proof.
  unfold isSameReview, filename_set.
  destruct (decide (commitId a = commitId b)) as [Hc|Hc].
  2: { rewrite bool_decide_eq_false_2 by done. simpl.
       split; [done|by intros (? & _)]. }
  rewrite bool_decide_eq_true_2 by done. simpl.
  destruct (Nat.eqb_spec (length (files a)) (length (files b))) as [Hl|Hl];
    simpl; [|split; [done|by intros (_ & ? & _)]].
  rewrite forallb_forall. split.
  - intros Hall. repeat split; [done..|]. intros x Hx.
    apply elem_of_elements, list_elem_of_In in Hx.
    specialize (Hall x Hx). by apply bool_decide_eq_true in Hall.
  - intros (_ & _ & Hsub) x Hx. apply bool_decide_eq_true, Hsub.
    by apply elem_of_elements, list_elem_of_In.
Qed.

Lemma size_list_to_set_le (l : list jsstring) :
  (size (list_to_set l : gset jsstring) ≤ length l)%nat.
Proof.
  induction l as [|x l IH].
  - rewrite list_to_set_nil, size_empty. simpl. lia.
  - rewrite list_to_set_cons, size_union_alt, size_singleton. simpl.
    pose proof (subseteq_size (list_to_set l ∖ {[x]}) (list_to_set l : gset _)
                  ltac:(set_solver)).
    lia.
Qed.

(** What [isSameReview] computes.  It is false when either state is
    absent; for two states it compares the commit ids, the lengths of the
    two lists, and tests that every filename of the first occurs in the
    second.  When the first list repeats no filename this is: equal commit
    ids, identical filename sets and equally long lists.  A state is
    always the same review as itself. *)
Theorem isSameReview_spec :
  (∀ b, isSameReview None b = false)
  ∧ (∀ a, isSameReview a None = false)
  ∧ (∀ a b,
       NoDup (File.filename <$> files a) →
       isSameReview (Some a) (Some b) = true
       ↔ commitId a = commitId b
         ∧ filename_set a = filename_set b
         ∧ length (files a) = length (files b))
  ∧ (∀ s, isSameReview (Some s) (Some s) = true).
Proof.
  split; [done|]. split; [by intros [?|]|]. split.
  - intros a b Hnd. rewrite isSameReview_Some. split.
    + intros (Hc & Hl & Hsub). repeat split; [done| |done].
      apply set_subseteq_size_eq; [done|].
      unfold filename_set.
      rewrite (size_list_to_set (File.filename <$> files a)) by done.
      etrans; [apply size_list_to_set_le|].
      by rewrite !length_fmap, Hl.
    + intros (Hc & Hset & Hl). by rewrite Hset.
  - intros s. by apply isSameReview_Some.
Qed.

Lemma isSameReview_spec_witness :
  let a := createReviewState (js "t0") (js "abc123") [js "a.ts"; js "b.ts"] in
  let b := createReviewState (js "t1") (js "abc123") [js "b.ts"; js "a.ts"] in
  NoDup (File.filename <$> files a)
  ∧ (isSameReview (Some a) (Some b) = true
     ↔ commitId a = commitId b
       ∧ filename_set a = filename_set b
       ∧ length (files a) = length (files b)).
Proof.
  intros a b.
  assert (∀ P Q : Prop, P → (P → Q) → P ∧ Q) as Hand by tauto.
  apply Hand.
  - simpl. apply NoDup_cons. split; [|apply NoDup_singleton].
    rewrite list_elem_of_singleton. by vm_compute.
  - destruct isSameReview_spec as (_ & _ & H & _). apply H.
Defined.

(** C7. The code misses the comparison of the filename sets that its
    comment "Must have the same files" announces: it compares the lengths
    of the two lists and tests only that every filename of the first
    state occurs in the second.  With the files [a.ts, a.ts] against
    [a.ts, b.ts] the filename sets differ, yet [isSameReview] answers
    true; with the two states exchanged it answers false. *)
Theorem isSameReview_repeated_filename :
  let a := createReviewState (js "t0") (js "abc123") [js "a.ts"; js "a.ts"] in
  let b := createReviewState (js "t0") (js "abc123") [js "a.ts"; js "b.ts"] in
  filename_set a ≠ filename_set b
  ∧ isSameReview (Some a) (Some b) = true
  ∧ isSameReview (Some b) (Some a) = false.
Proof.
  assert (js "b.ts" ≠ js "a.ts") as Hne by by vm_compute.
  intros a b. split; [|split].
  - subst a b. unfold filename_set, createReviewState. simpl.
    revert Hne. generalize (js "a.ts") (js "b.ts"). intros x y Hne Heq.
    assert (y ∈ ({[x]} ∪ ({[x]} ∪ ∅) : gset jsstring))
      as Hin by (rewrite Heq; set_solver).
    set_solver.
  - apply isSameReview_Some. repeat split.
    subst a b. unfold filename_set, createReviewState. simpl.
    generalize (js "a.ts") (js "b.ts"). intros x y. set_solver.
  - destruct (isSameReview (Some b) (Some a)) eqn:Hsame; [|done].
    apply isSameReview_Some in Hsame as (_ & _ & Hsub). exfalso.
    revert Hsub. subst a b. unfold filename_set, createReviewState. simpl.
    revert Hne. generalize (js "a.ts") (js "b.ts"). intros x y Hne Hsub.
    assert (y ∈ ({[x]} ∪ ({[x]} ∪ ∅) : gset jsstring))
      as Hin by (apply Hsub; set_solver).
    set_solver.
Qed.

End ReviewStateProperties.

(** ** Persisted state *)

Section DeserializeProperties.
Import ReviewState.
Context {number : Type}.
Variable number_truthy : number → bool.
Variable JSON_parse : jsstring → Exn + @json number.

Lemma truthy_false (v : option (@json number)) :
  truthy number_truthy v = false ↔ is_falsy number_truthy v.
Proof.
  unfold is_falsy. split.
  - destruct v as [[| b | x | s | |]|]; simpl; intros H; try discriminate.
    + right; by left.
    + destruct b; [discriminate|]. right; right; by left.
    + right; right; right; left. eauto.
    + apply negb_false_iff, bool_decide_eq_true in H as ->.
      right; right; right; by right.
    + by left.
  - intros [-> | [-> | [-> | [[x [-> Hx]] | ->]]]]; done.
Qed.

Lemma Array_isArray_false (v : option (@json number)) :
  Array_isArray v = false ↔ ∀ items, v ≠ Some (JArr items).
Proof.
  split.
  - by destruct v as [[]|].
  - destruct v as [[| | | |items|]|]; try done. intros H. by destruct (H items).
Qed.

Lemma strict_eq_string_false (v : option (@json number)) s :
  strict_eq_string v s = false ↔ v ≠ Some (JStr s).
Proof.
  destruct v as [[| | |s'| |]|]; simpl; try done.
  rewrite bool_decide_eq_false. split; [by intros ? [= ->]|].
  intros H ->. done.
Qed.

(** The checks of [deserializeState] on a parsed value. *)
Lemma deserializeState_parsed text state :
  JSON_parse text = inr state →
  (rejected number_truthy state →
   deserializeState number_truthy JSON_parse text = inr None)
  ∧ (¬ rejected number_truthy state →
     deserializeState number_truthy JSON_parse text = inr (Some state)).
Proof.
  intros Hp. unfold deserializeState, deserializeState_try, rejected.
  rewrite Hp. simpl.
  destruct state as [| b | x | s | items | fields]; simpl;
    try (split; [done|]; intros []; left; by left).
  rewrite <-!truthy_false, <-Array_isArray_false, <-strict_eq_string_false.
  destruct (truthy _ (assoc (js "version") fields)); simpl;
    [|split; [done|]; intros []; by left].
  destruct (truthy _ (assoc (js "startedAt") fields)); simpl;
    [|split; [done|]; intros []; right; by left].
  destruct (truthy _ (assoc (js "commitId") fields)); simpl;
    [|split; [done|]; intros []; right; right; by left].
  destruct (Array_isArray (assoc (js "files") fields)); simpl;
    [|split; [done|]; intros []; right; right; right; by left].
  destruct (strict_eq_string (assoc (js "version") fields) (js "1.0")); simpl;
    [|split; [done|]; intros []; right; right; right; by right].
  split; [|done]. intros [|[|[|[|]]]]; done.
Qed.

(** C6, as the code has it. [deserializeState] never throws.  It returns
    [null] when the text does not parse and when the parsed value is
    rejected: [version], [startedAt] or [commitId] is absent or falsy
    ([null], [false], zero or the empty string), [files] is not an array,
    or [version] is not the string ["1.0"].  Otherwise it returns the
    parsed value. *)
Theorem deserializeState_spec text :
  ∃ r,
    deserializeState number_truthy JSON_parse text = inr r
    ∧ match JSON_parse text with
      | inl _ => r = None
      | inr state =>
          (rejected number_truthy state → r = None)
          ∧ (¬ rejected number_truthy state → r = Some state)
      end.
Proof.
  destruct (JSON_parse text) as [e|state] eqn:Hp.
  - exists None. unfold deserializeState, deserializeState_try.
    by rewrite Hp.
  - destruct (deserializeState_parsed text state Hp) as [Hrej Hacc].
    unfold deserializeState in *.
    destruct (deserializeState_try _ _ text) as [e|r]; [exists None|exists r];
      (split; [done|]); split; intros H;
      first [apply Hrej in H; congruence|apply Hacc in H; congruence].
Qed.

End DeserializeProperties.

Lemma deserializeState_spec_witness :
  let truthyZ := λ n : Z, negb (n =? 0) in
  let text := ReviewState.sample_text "2024-01-01T00:00:00.000Z" in
  let state : @ReviewState.json Z :=
    ReviewState.sample_value "2024-01-01T00:00:00.000Z" in
  let JSON_parse := λ t : jsstring,
    if bool_decide (t = text) then inr state
    else inl SyntaxError in
  ¬ ReviewState.rejected truthyZ state
  ∧ ReviewState.deserializeState truthyZ JSON_parse text = inr (Some state)
  ∧ ReviewState.deserializeState truthyZ JSON_parse (js "{") = inr None.
Proof.
  intros truthyZ text state JSON_parse.
  assert (¬ ReviewState.rejected truthyZ state) as Hok.
  { unfold ReviewState.rejected, ReviewState.is_falsy. vm_compute.
    intros [H|[H|[H|[H|H]]]];
      try (destruct H as [H|[H|[H|[[x [H _]]|H]]]]; discriminate);
      [by eapply H|by apply H]. }
  split; [done|].
  destruct (deserializeState_spec truthyZ JSON_parse text) as (r & -> & Hr).
  destruct (deserializeState_spec truthyZ JSON_parse (js "{"))
    as (r' & -> & Hr').
  change (JSON_parse text) with (@inr Exn _ state) in Hr.
  change (JSON_parse (js "{"))
    with (@inl Exn (@ReviewState.json Z) SyntaxError)
    in Hr'.
  destruct Hr as [_ Hacc]. by rewrite (Hacc Hok), Hr'.
Defined.

(** C6 fails as stated: the text
    [{"version":"1.0","startedAt":"","commitId":"abc123","files":[]}]
    parses to a value that has every field, an array of files and version
    ["1.0"], and it is rejected all the same, its [startedAt] being the
    empty string. *)
Lemma deserializeState_empty_startedAt_counterexample :
  let truthyZ := λ n : Z, negb (n =? 0) in
  let text := ReviewState.sample_text "" in
  let state : @ReviewState.json Z := ReviewState.sample_value "" in
  ¬ ReviewState.rejected_as_stated state
  ∧ ∀ JSON_parse,
      JSON_parse text = inr state →
      ReviewState.deserializeState truthyZ JSON_parse text = inr None.
Proof.
  intros truthyZ text state. split.
  - unfold ReviewState.rejected_as_stated. vm_compute.
    intros [H|[H|[H|[H|H]]]]; try discriminate; [by eapply H|by apply H].
  - intros JSON_parse Hp.
    unfold ReviewState.deserializeState, ReviewState.deserializeState_try.
    rewrite Hp. by vm_compute.
Qed.

(** ** Retry policy *)

Section RetryProperties.
Import RetryLogic.

(** C8. [shouldRetry] is false for [token_limit]; for every other error
    type it is true exactly when the attempt number is below the maximum
    the configuration gives for that type, or below the global
    [maxAttempts] when it gives none. *)
Theorem shouldRetry_spec (currentAttempt : Z) (errorType : ErrorType)
    (config : RetryConfig) :
  shouldRetry currentAttempt token_limit config = false
  ∧ (errorType ≠ token_limit →
     shouldRetry currentAttempt errorType config = true
     ↔ currentAttempt
       < match perErrorTypeMaxAttempts config with
         | Some per =>
             match per errorType with
             | Some n => n
             | None => maxAttempts config
             end
         | None => maxAttempts config
         end).
Proof.
  split; [done|]. intros Hne. unfold shouldRetry, nullish.
  replace (strategy_shouldRetry (getRetryStrategy errorType)) with true
    by by destruct errorType.
  simpl. rewrite Z.ltb_lt.
  destruct (perErrorTypeMaxAttempts config) as [per|]; simpl; [|done].
  by destruct (per errorType).
Qed.

Lemma shouldRetry_spec_witness :
  let config :=
    {| maxAttempts := 3;
       perErrorTypeMaxAttempts :=
         Some (λ ty, if decide (ty = rate_limit) then Some 5 else None) |} in
  rate_limit ≠ token_limit
  ∧ (shouldRetry 4 rate_limit config = true ↔ 4 < 5)
  ∧ timeout ≠ token_limit
  ∧ (shouldRetry 3 timeout config = true ↔ 3 < 3).
Proof.
  intros config.
  split; [done|]. split; [by apply (shouldRetry_spec 4 rate_limit config)|].
  split; [done|]. by apply (shouldRetry_spec 3 timeout config).
Defined.

End RetryProperties.

(** ** The packer *)

Section PackerProperties.
Import Review.

(** The text [packPatchesIntoInputs] assembles does not depend on the
    tokenizer, on the request budget or on the tokens counted so far:
    the test on the comment chain's tokens only decides whether they are
    added to the running count. *)
Lemma pack_loop_ignores_budget getTokenCount getTokenCount' requestTokens
    requestTokens' getCommentChainForPatch patches patchesToPack tokens
    tokens' patchesPacked ins_patches :
  pack_loop getTokenCount requestTokens getCommentChainForPatch patches
    patchesToPack tokens patchesPacked ins_patches
  = pack_loop getTokenCount' requestTokens' getCommentChainForPatch patches
      patchesToPack tokens' patchesPacked ins_patches.
Proof.
  revert tokens tokens' patchesPacked ins_patches.
  induction patches as [|[[startLine endLine] patch] patches IH];
    intros tokens tokens' patchesPacked ins_patches; simpl; [done|].
  destruct (patchesPacked >=? patchesToPack); [done|]. apply IH.
Qed.

(** C2 on the code. One hunk, a budget of 10 tokens, a comment chain of
    20 tokens (one per code unit): the chain does not fit, and the
    assembled text carries it all the same, between the hunk and the end
    marker. *)
Theorem packPatchesIntoInputs_keeps_oversized_chain :
  let getTokenCount := λ s : jsstring, Z.of_nat (length s) in
  let requestTokens := 10 in
  let chain := js "a long review thread" in
  let r :=
    packPatchesIntoInputs getTokenCount requestTokens (λ _ _, chain)
      (Some 7) [] [(1, 3, js "hunk")] 1 0 in
  requestTokens < 0 + getTokenCount chain
  ∧ r.1 = 1
  ∧ r.2 = [10%N] ++ js "hunk" ++ [10%N] ++ comment_chain_block chain
          ++ end_change_section
  ∧ includes r.2 chain = true.
Proof. by vm_compute. Qed.

End PackerProperties.

(** ** The comment-to-patch mapper *)

Section MapperProperties.
Import Review.

Lemma intersection_le s e p : intersection s e p ≤ Z.max 0 (e - s + 1).
Proof. unfold intersection. lia. Qed.

Lemma intersection_nonneg s e p : 0 ≤ intersection s e p.
Proof. unfold intersection. lia. Qed.

Lemma max_intersection_nonneg s e patches : 0 ≤ max_intersection s e patches.
Proof. induction patches; simpl; lia. Qed.

Lemma max_intersection_ge s e patches p :
  p ∈ patches → intersection s e p ≤ max_intersection s e patches.
Proof.
  induction 1 as [p l|p q l _ IH]; simpl; [lia|].
  pose proof (max_intersection_nonneg s e l). lia.
Qed.

(** The loop stops with [withinPatch] as soon as it meets a hunk that
    holds the whole range. *)
Lemma findBest_loop_within s e patches bs be maxI :
  0 ≤ maxI → maxI < e - s + 1 →
  (∃ p, p ∈ patches ∧ intersection s e p = e - s + 1) →
  withinPatch (findBest_loop s e patches false bs be maxI) = true.
Proof.
  intros H0 HL (p & Hin & Hp).
  revert bs be maxI H0 HL.
  induction Hin as [p l|p q l Hin IH]; intros bs be maxI H0 HL; simpl.
  - destruct p as [[ps pe] pt]. unfold intersection in Hp. simpl in Hp.
    rewrite Hp. destruct (Z.gtb_spec (e - s + 1) maxI); [|lia].
    by rewrite Z.eqb_refl.
  - destruct q as [[qs qe] qt].
    pose proof (intersection_le s e (qs, qe, qt)) as Hle.
    unfold intersection in Hle. simpl in Hle.
    destruct (Z.gtb_spec (Z.max 0 (Z.min e qe - Z.max s qs + 1)) maxI).
    + destruct (Z.eqb_spec (Z.max 0 (Z.min e qe - Z.max s qs + 1))
                  (e - s + 1)); [done|].
      apply IH; [done|lia..].
    + by apply IH.
Qed.

(** Without such a hunk the loop runs to the end and keeps the first hunk
    of maximal intersection, if that exceeds the initial maximum. *)
Lemma findBest_loop_best s e patches bs be maxI :
  0 ≤ maxI →
  (∀ p, p ∈ patches → maxI < intersection s e p →
        intersection s e p ≠ e - s + 1) →
  ∃ bs' be',
    findBest_loop s e patches false bs be maxI
    = {| withinPatch := false; bestPatchStartLine := bs';
         bestPatchEndLine := be' |}
    ∧ (max_intersection s e patches ≤ maxI → bs' = bs ∧ be' = be)
    ∧ (maxI < max_intersection s e patches →
       ∃ i p,
         list_find
           (λ p, intersection s e p
                 = Z.max maxI (max_intersection s e patches)) patches
         = Some (i, p)
         ∧ bs' = p.1.1 ∧ be' = p.1.2).
Proof.
  revert bs be maxI.
  induction patches as [|q l IH]; intros bs be maxI HmaxI Hnever; simpl.
  { exists bs, be. repeat split; [done..|]. lia. }
  pose proof (max_intersection_nonneg s e l) as Hl0.
  destruct q as [[qs qe] qt].
  pose proof (Hnever (qs, qe, qt) ltac:(left)) as Hq.
  change (Z.max 0 (Z.min e qe - Z.max s qs + 1))
    with (intersection s e (qs, qe, qt)) in *.
  set (iq := intersection s e (qs, qe, qt)) in *.
  destruct (Z.gtb_spec iq maxI) as [Hgt|Hle].
  - destruct (Z.eqb_spec iq (e - s + 1)) as [Heq|_]; [by destruct Hq|].
    destruct (IH qs qe iq) as (bs' & be' & -> & Hkeep & Hfind); [lia| |].
    { intros p Hp Hlt. apply Hnever; [by right|lia]. }
    exists bs', be'. split; [done|]. split; [lia|]. intros _.
    destruct (decide (max_intersection s e l ≤ iq)) as [Hml|Hml].
    + destruct (Hkeep Hml) as [-> ->]. exists 0%nat, (qs, qe, qt).
      split; [|done]. rewrite decide_True; [done|lia].
    + destruct Hfind as (i & p & Hf & -> & ->); [lia|].
      exists (S i), p. split; [|done].
      rewrite decide_False by lia.
      replace (Z.max maxI (Z.max iq (max_intersection s e l)))
        with (Z.max iq (max_intersection s e l)) by lia.
      by rewrite Hf.
  - destruct (IH bs be maxI) as (bs' & be' & -> & Hkeep & Hfind); [done| |].
    { intros p Hp Hlt. apply Hnever; [by right|done]. }
    exists bs', be'. split; [done|]. split; [intros ?; apply Hkeep; lia|].
    intros Hlt. destruct Hfind as (i & p & Hf & -> & ->); [lia|].
    exists (S i), p. split; [|done].
    rewrite decide_False by lia.
    replace (Z.max maxI (Z.max iq (max_intersection s e l)))
      with (Z.max maxI (max_intersection s e l)) by lia.
    by rewrite Hf.
Qed.

(** C4, as the code has it. For every range and every non-empty list of
    hunks with non-negative start lines, all line numbers being in the
    range where the arithmetic of the code is exact, the mapper returns a
    review.  If
    some hunk's intersection with the range is positive and equals the
    range's full length, the review is returned unchanged.  Otherwise, if
    some hunk intersects the range, the range becomes the bounds of the
    first hunk of maximal intersection and the comment gets the note that
    gives the original lines; if no hunk intersects it, the range becomes
    the first hunk's bounds and the comment gets the "no patch was found"
    note. *)
Theorem mapReviewToPatch_spec (patches : list Patch) (review : Review) :
  patches ≠ [] →
  Forall (λ p : Patch, 0 ≤ p.1.1) patches →
  safe_line (Rev.startLine review) →
  safe_line (Rev.endLine review) →
  Forall (λ p : Patch, safe_line p.1.1 ∧ safe_line p.1.2) patches →
  mapper_spec true patches review.
Proof.
  intros Hne Hpos _ _ _. unfold mapper_spec.
  set (s := Rev.startLine review). set (e := Rev.endLine review).
  unfold mapReviewToPatch, findBestPatchMapping. fold s e.
  destruct (decide (Exists (λ p, intersection s e p = e - s + 1
                                 ∧ 0 < intersection s e p) patches))
    as [Hex|Hnex].
  - apply Exists_exists in Hex as (p & Hin & Hfull & Hp0).
    exists review.
    rewrite (findBest_loop_within s e patches (-1) (-1) 0) by (lia || eauto).
    simpl. split; [done|]. split; [done|]. split.
    + intros []. exists p. by repeat split.
    + intros Hmax0. pose proof (max_intersection_ge s e patches p Hin). lia.
  - assert (¬ ∃ p, p ∈ patches
                   ∧ intersection s e p = e - s + 1
                   ∧ (true = true → 0 < intersection s e p)) as Hnex'.
    { intros (p & Hin & Hp & Hp0). apply Hnex, Exists_exists.
      exists p. split; [done|]. split; [done|by apply Hp0]. }
    destruct (findBest_loop_best s e patches (-1) (-1) 0)
      as (bs' & be' & -> & Hkeep & Hfind); [lia| |].
    { intros p Hp Hlt Heq. apply Hnex, Exists_exists. by exists p. }
    simpl.
    pose proof (max_intersection_nonneg s e patches) as Hm0.
    destruct (decide (max_intersection s e patches ≤ 0)) as [Hm|Hm].
    + destruct (Hkeep Hm) as [-> ->]. simpl.
      destruct patches as [|[[s0 e0] t0] patches']; [done|].
      eexists. split; [done|]. split; [by intros ?|].
      split; [intros _ ?; lia|]. intros _. by eexists.
    + destruct Hfind as (i & p & Hf & -> & ->); [lia|].
      replace (Z.max 0 (max_intersection s e patches))
        with (max_intersection s e patches) in Hf by lia.
      apply list_find_Some in Hf as Hf'. destruct Hf' as (Hi & Hp & _).
      apply list_elem_of_lookup_2 in Hi.
      rewrite Forall_forall in Hpos. specialize (Hpos p Hi).
      assert (0 < intersection s e p) as Hp0 by lia.
      unfold intersection in Hp0.
      destruct (Z.eqb_spec p.1.1 (-1)); [lia|].
      destruct (Z.eqb_spec p.1.2 (-1)); [lia|]. simpl.
      eexists. split; [done|]. split; [by intros ?|].
      split; [|intros ?; lia]. intros _ _. by exists i, p.
Qed.

Lemma mapReviewToPatch_spec_witness :
  let patches : list Patch := [(1, 10, js "a"); (20, 30, js "b")] in
  let review := Rev.mk 8 25 (js "c") in
  patches ≠ []
  ∧ Forall (λ p : Patch, 0 ≤ p.1.1) patches
  ∧ safe_line (Rev.startLine review)
  ∧ safe_line (Rev.endLine review)
  ∧ Forall (λ p : Patch, safe_line p.1.1 ∧ safe_line p.1.2) patches
  ∧ mapper_spec true patches review.
Proof.
  intros patches review.
  assert (patches ≠ []) as Hne by done.
  assert (Forall (λ p : Patch, 0 ≤ p.1.1) patches) as Hpos.
  { repeat constructor; simpl; lia. }
  assert (safe_line (Rev.startLine review)) as Hs
    by (unfold safe_line; simpl; lia).
  assert (safe_line (Rev.endLine review)) as He
    by (unfold safe_line; simpl; lia).
  assert (Forall (λ p : Patch, safe_line p.1.1 ∧ safe_line p.1.2) patches)
    as Hsafe by (repeat constructor; unfold safe_line; simpl; lia).
  split; [done|]. split; [done|]. split; [done|]. split; [done|].
  split; [done|].
  exact (mapReviewToPatch_spec patches review Hne Hpos Hs He Hsafe).
Defined.

(** C4 fails as stated: for the empty range 5-4 the one hunk's
    intersection, 0, equals the range's length, 0, so the claim keeps the
    range, while the code moves it to the hunk 1-10. *)
Lemma mapper_empty_range_counterexample :
  let patches : list Patch := [(1, 10, js "hunk")] in
  let review := Rev.mk 5 4 (js "c") in
  patches ≠ []
  ∧ mapReviewToPatch patches review
    = inr (remapped (note_no_overlap review) (1, 10, js "hunk") review)
  ∧ ¬ mapper_spec false patches review.
Proof.
  intros patches review. split; [done|]. split; [done|].
  intros (r & Hr & Hkeep & _).
  assert (r = review) as ->.
  { apply Hkeep. exists (1, 10, js "hunk"). split; [left|]. by split. }
  vm_compute in Hr. discriminate.
Qed.

End MapperProperties.

(** ** The rendering of a hunk *)

Section RenderProperties.
Import Review.










(** A hunk with an added line: of its nine body lines only the context
    line at position 4 is outside the first three and the last three. *)
Example parsePatch_hunk_with_addition :
  parsePatch
    (js_lines ["@@ -10,8 +20,8 @@ ctx"; " a"; " b"; " c"; " d"; "+e"; "-f";
               " g"; " h"; " i"; ""])
  = Some {| oldHunkText :=
              js_lines [" a"; " b"; " c"; " d"; "f"; " g"; " h"; " i"];
            newHunkText :=
              js_lines [" a"; " b"; " c"; "23:  d"; "24: e"; " g"; " h";
                        " i"] |}.
Proof. by vm_compute. Qed.

(** A removal-only hunk: every context line is numbered. *)
Example parsePatch_removal_only_hunk :
  parsePatch (js_lines ["@@ -10,4 +20,3 @@"; " a"; "-b"; " c"; " d"])
  = Some {| oldHunkText := js_lines [" a"; "b"; " c"; " d"];
            newHunkText := js_lines ["20:  a"; "21:  c"; "22:  d"] |}.
Proof. by vm_compute. Qed.

End RenderProperties.

(** ** [splitPatch] *)

Section SplitProperties.
Import Review.

Lemma take_drop_while p s : take_while p s ++ drop_while p s = s.
Proof. induction s as [|c s IH]; simpl; [done|]. destruct (p c); simpl; by f_equal. Qed.

Lemma take_while_Forall p s : Forall (λ c, p c = true) (take_while p s).
Proof.
  induction s as [|c s IH]; simpl; [constructor|].
  destruct (p c) eqn:Hc; by constructor.
Qed.

Lemma lit_Some p s r : lit p s = Some r → s = p ++ r.
Proof.
  revert s. induction p as [|c p IH]; intros [|d s]; simpl; try done.
  - by intros [= ->].
  - by intros [= ->].
  - case_bool_decide as Hc; [|done]. subst d. intros ->%IH. done.
Qed.

Lemma digits1_Some s ds r :
  digits1 s = Some (ds, r) →
  s = ds ++ r ∧ ds ≠ [] ∧ Forall (λ c, nonterm c = true) ds.
Proof.
  unfold digits1. pose proof (take_drop_while is_digit s) as Happ.
  pose proof (take_while_Forall is_digit s) as Hall.
  destruct (take_while is_digit s) as [|c ds']; [done|].
  intros [= <- <-]. repeat split; [done..|].
  eapply Forall_impl; [exact Hall|]. intros d Hd. unfold is_digit in Hd.
  apply andb_true_iff in Hd as [H1%N.leb_le H2%N.leb_le].
  unfold nonterm, is_line_terminator.
  rewrite bool_decide_eq_false_2; [done|]. lia.
Qed.

Lemma header_Some s g rest :
  header s = Some (g, rest) →
  ∃ h, s = h ++ rest ∧ h ≠ [] ∧ Forall (λ c, nonterm c = true) h.
Proof.
  unfold header. intros H.
  destruct (lit (js "@@ -") s) as [s1|] eqn:E1; cbn [mbind option_bind] in H;
    [|discriminate].
  destruct (digits1 s1) as [[g2 s2]|] eqn:E2; cbn [mbind option_bind] in H;
    [|discriminate].
  destruct (lit (js ",") s2) as [s3|] eqn:E3; cbn [mbind option_bind] in H;
    [|discriminate].
  destruct (digits1 s3) as [[g3 s4]|] eqn:E4; cbn [mbind option_bind] in H;
    [|discriminate].
  destruct (lit (js " +") s4) as [s5|] eqn:E5; cbn [mbind option_bind] in H;
    [|discriminate].
  destruct (digits1 s5) as [[g4 s6]|] eqn:E6; cbn [mbind option_bind] in H;
    [|discriminate].
  destruct (lit (js ",") s6) as [s7|] eqn:E7; cbn [mbind option_bind] in H;
    [|discriminate].
  destruct (digits1 s7) as [[g5 s8]|] eqn:E8; cbn [mbind option_bind] in H;
    [|discriminate].
  destruct (lit (js " @@") s8) as [s9|] eqn:E9; cbn [mbind option_bind] in H;
    [|discriminate].
  injection H as <- <-.
  apply lit_Some in E1, E3, E5, E7, E9.
  apply digits1_Some in E2 as (-> & _ & F2), E4 as (-> & _ & F4),
    E6 as (-> & _ & F6), E8 as (-> & _ & F8).
  subst.
  exists (js "@@ -" ++ g2 ++ js "," ++ g3 ++ js " +" ++ g4 ++ js "," ++ g5
          ++ js " @@").
  split; [by rewrite <-!(assoc_L (++))|]. split; [done|].
  repeat (apply Forall_app; split); try done;
    by repeat (constructor; [by vm_compute|]).
Qed.

Lemma header_line_match_Some s len :
  header_line_match s = Some len →
  (1 ≤ len ≤ length s)%nat ∧ Forall (λ c, nonterm c = true) (take len s).
Proof.
  unfold header_line_match.
  destruct (header s) as [[g rest]|] eqn:Hh; simpl; [|done].
  intros [= <-]. apply header_Some in Hh as (h & -> & Hne & Hall).
  assert (∃ w d, rest = w ++ d
                 ∧ take_while (λ c, negb (is_line_terminator c)) rest = w
                 ∧ Forall (λ c, nonterm c = true) w)
    as (w & d & Hr & -> & Hw).
  { eexists _, _. split; [symmetry; apply take_drop_while|].
    split; [done|]. apply take_while_Forall. }
  subst rest. rewrite !length_app.
  replace (length h + (length w + length d) - (length w + length d)
           + length w)%nat
    with (length h + length w)%nat by lia.
  split; [destruct h; [done|]; simpl; lia|].
  rewrite (assoc_L (++)), take_app_length' by (rewrite length_app; lia).
  by apply Forall_app.
Qed.

(** No line starts inside a run of code units that [.] matches. *)
Lemma header_lines_from_skip n t j :
  (n ≤ length t)%nat →
  Forall (λ c, nonterm c = true) (take n t) →
  header_lines_from false t j = header_lines_from false (drop n t) (j + n).
Proof.
  revert t j. induction n as [|n IH]; intros t j Hn Hall.
  { by rewrite drop_0, Nat.add_0_r. }
  destruct t as [|c t]; simpl in Hn; [lia|].
  rewrite firstn_cons in Hall. apply Forall_cons in Hall as [Hc Hall].
  cbn [header_lines_from andb app drop].
  unfold nonterm in Hc. apply negb_true_iff in Hc. rewrite Hc.
  rewrite (IH t (S j)) by (done || lia). f_equal. lia.
Qed.

Lemma search_None bol s i :
  search header_line_match bol s i = None → header_lines_from bol s i = [].
Proof.
  revert bol i. induction s as [|c s IH]; intros bol i; simpl.
  - destruct bol; simpl; [|done]. by destruct (header_line_match []).
  - destruct bol; simpl.
    + destruct (header_line_match (c :: s)) eqn:Hm; [done|].
      intros Hs. rewrite bool_decide_eq_false_2 by (by intros [? ?]).
      by apply IH.
    + apply IH.
Qed.

Lemma search_Some bol s i j len :
  search header_line_match bol s i = Some (j, len) →
  ∃ k, j = (i + k)%nat
       ∧ (1 ≤ len)%nat ∧ (k + len ≤ length s)%nat
       ∧ Forall (λ c, nonterm c = true) (take len (drop k s))
       ∧ header_lines_from bol s i
         = j :: header_lines_from false (drop (k + len) s) (j + len).
Proof.
  assert (∀ s i len,
            header_line_match s = Some len →
            (1 ≤ len)%nat ∧ (0 + len ≤ length s)%nat
            ∧ Forall (λ c, nonterm c = true) (take len (drop 0 s))
            ∧ header_lines_from true s i
              = i :: header_lines_from false (drop (0 + len) s) (i + len))
    as Hhere.
  { clear. intros s i len Hm.
    destruct (header_line_match_Some s len Hm) as ([Hlen1 Hlen2] & Hall).
    repeat split; [done..|].
    destruct s as [|c s]; simpl in Hlen2; [lia|].
    destruct len as [|len]; [lia|].
    cbn [header_lines_from andb]. rewrite Hm.
    rewrite bool_decide_eq_true_2 by eauto. cbn [app drop Nat.add].
    rewrite firstn_cons in Hall. apply Forall_cons in Hall as [Hc Hall].
    unfold nonterm in Hc. apply negb_true_iff in Hc. rewrite Hc.
    f_equal. rewrite (header_lines_from_skip len s (S i)) by (done || lia).
    f_equal. lia. }
  revert bol i. induction s as [|c s IH]; intros bol i; cbn [search].
  - destruct bol; [|done].
    destruct (header_line_match []) eqn:Hm; [|done].
    intros [= <- <-]. exists 0%nat. rewrite Nat.add_0_r.
    by destruct (Hhere _ i _ Hm) as (? & ? & ? & ?).
  - assert (search header_line_match (is_line_terminator c) s (S i)
            = Some (j, len) →
            header_lines_from (is_line_terminator c) s (S i)
            = header_lines_from bol (c :: s) i →
            ∃ k, j = (i + k)%nat ∧ (1 ≤ len)%nat
                 ∧ (k + len ≤ length (c :: s))%nat
                 ∧ Forall (λ c, nonterm c = true)
                     (take len (drop k (c :: s)))
                 ∧ header_lines_from bol (c :: s) i
                   = j :: header_lines_from false (drop (k + len) (c :: s))
                            (j + len)) as Hnext.
    { intros Hs Heq. destruct (IH _ _ Hs) as (k & -> & ? & ? & ? & Hl).
      exists (S k). rewrite <-Heq, Hl. simpl.
      repeat split; [lia|done|lia|done]. }
    destruct bol.
    + destruct (header_line_match (c :: s)) eqn:Hm.
      * intros [= <- <-]. exists 0%nat. rewrite Nat.add_0_r.
        by destruct (Hhere _ i _ Hm) as (? & ? & ? & ?).
      * intros Hs. apply Hnext; [done|]. cbn [header_lines_from andb].
        rewrite Hm, bool_decide_eq_false_2 by (by intros [? ?]). done.
    + intros Hs. by apply Hnext.
Qed.

Lemma exec_None patch lastIndex :
  (lastIndex ≤ length patch)%nat →
  exec header_line_match patch lastIndex = None →
  tail_lines patch lastIndex = [].
Proof.
  unfold exec, tail_lines. intros Hli.
  rewrite (proj2 (Nat.ltb_ge _ _)) by lia. apply search_None.
Qed.

Lemma exec_Some patch lastIndex j len :
  (lastIndex ≤ length patch)%nat →
  exec header_line_match patch lastIndex = Some (j, len) →
  (lastIndex ≤ j)%nat ∧ (1 ≤ len)%nat ∧ (j + len ≤ length patch)%nat
  ∧ tail_lines patch lastIndex = j :: tail_lines patch (j + len).
Proof.
  unfold exec, tail_lines. intros Hli.
  rewrite (proj2 (Nat.ltb_ge _ _)) by lia.
  intros (k & -> & Hlen & Hk & Hall & Hl)%search_Some.
  rewrite length_drop in Hk. repeat split; [lia..|].
  rewrite Hl, drop_drop. f_equal.
  replace (lastIndex + (k + len))%nat with (lastIndex + k + len)%nat by lia.
  f_equal. unfold bol_at.
  destruct (lastIndex + k + len)%nat as [|m] eqn:Hm; [lia|].
  destruct (patch !! m) as [c|] eqn:Hc; [|done]. simpl.
  rewrite Forall_lookup in Hall. specialize (Hall (len - 1)%nat c).
  rewrite lookup_take_lt, !lookup_drop in Hall by lia.
  replace (lastIndex + (k + (len - 1)))%nat with m in Hall by lia.
  specialize (Hall Hc). unfold nonterm in Hall.
  by apply negb_true_iff in Hall.
Qed.

(** With enough fuel the loop is the run over the header lines. *)
Lemma splitPatch_loop_run fuel patch lastIndex last result :
  (lastIndex ≤ length patch)%nat →
  (length patch - lastIndex < fuel)%nat →
  splitPatch_loop fuel patch lastIndex last result
  = Some (run_matches patch (tail_lines patch lastIndex) last result).
Proof.
  revert lastIndex last result.
  induction fuel as [|fuel IH]; intros li last result Hli Hfuel; [lia|].
  cbn [splitPatch_loop].
  destruct (exec header_line_match patch li) as [[j len]|] eqn:He.
  - destruct (exec_Some _ _ _ _ Hli He) as (Hj & Hlen & Hend & ->).
    cbn [run_matches]. destruct (last =? -1); apply IH; lia.
  - by rewrite (exec_None _ _ Hli He).
Qed.

Lemma ascending_weaken lo lo' ms hi :
  (lo' ≤ lo)%nat → ascending lo ms hi → ascending lo' ms hi.
Proof. destruct ms; simpl; [lia|]. intros ? [? ?]. split; [lia|done]. Qed.

Lemma header_lines_from_ascending bol s i :
  ascending i (header_lines_from bol s i) (i + length s).
Proof.
  revert bol i. induction s as [|c s IH]; intros bol i; cbn [header_lines_from].
  - rewrite app_nil_r. destruct (_ && _); simpl; lia.
  - specialize (IH (is_line_terminator c) (S i)).
    replace (i + length (c :: s))%nat with (S i + length s)%nat
      by (simpl; lia).
    destruct (_ && _); simpl.
    + split; [lia|]. eapply ascending_weaken; [|exact IH]. lia.
    + eapply ascending_weaken; [|exact IH]. lia.
Qed.

Lemma substring_between s a b :
  (a ≤ b ≤ length s)%nat → substring s a b = take (b - a) (drop a s).
Proof.
  intros [? ?]. unfold substring.
  rewrite (Nat.min_l a), (Nat.min_l b), Nat.max_r, Nat.min_l by lia. done.
Qed.

(** From a position [a] on, the run pushes one piece per match; together
    they are the text from [a] to the last match. *)
Lemma run_matches_from patch ms a result :
  ascending a ms (length patch) →
  ∃ b pieces,
    run_matches patch ms (Z.of_nat a) result = (Z.of_nat b, result ++ pieces)
    ∧ length pieces = length ms
    ∧ (a ≤ b ≤ length patch)%nat
    ∧ concat pieces = take (b - a) (drop a patch).
Proof.
  revert a result. induction ms as [|j ms IH]; intros a result; simpl.
  - intros Ha. exists a, []. rewrite app_nil_r, Nat.sub_diag.
    repeat split; first [done|lia].
  - intros [Haj Hasc].
    destruct (Z.eqb_spec (Z.of_nat a) (-1)) as [|_]; [lia|].
    destruct (IH j (result ++ [substring patch (Z.to_nat (Z.of_nat a)) j])
                Hasc) as (b & pieces & -> & Hlen & Hb & Hcat).
    exists b, (substring patch a j :: pieces).
    rewrite Nat2Z.id, <-(assoc_L (++)). simpl.
    split; [done|]. split; [by rewrite Hlen|]. split; [lia|].
    rewrite Hcat, substring_between by lia.
    replace (drop j patch) with (drop (j - a) (drop a patch))
      by (rewrite drop_drop; f_equal; lia).
    rewrite take_take_drop. f_equal. lia.
Qed.

(** C1, as the code has it. [splitPatch] of [null] is the empty list.
    For a string with N lines that match the header pattern it returns N
    substrings; their concatenation is the input from its first header
    line on (the text before the first header is not returned); with no
    matching line it returns the empty list. *)
Theorem splitPatch_spec patch :
  splitPatch None = Some []
  ∧ ∃ result,
      splitPatch (Some patch) = Some result
      ∧ length result = length (header_lines patch)
      ∧ concat result
        = drop (default (length patch) (head (header_lines patch))) patch
      ∧ (header_lines patch = [] → result = []).
Proof.
  split; [done|]. unfold splitPatch.
  rewrite splitPatch_loop_run by lia.
  change (tail_lines patch 0) with (header_lines patch).
  pose proof (header_lines_from_ascending true patch 0) as Hasc.
  fold (header_lines patch) in Hasc.
  destruct (header_lines patch) as [|j ms]; cbn [run_matches mbind option_bind].
  - exists []. simpl. by rewrite drop_all.
  - destruct Hasc as [_ Hasc]. simpl in Hasc. rewrite Z.eqb_refl.
    destruct (run_matches_from patch ms j [] Hasc)
      as (b & pieces & -> & Hlen & Hb & Hcat).
    cbn [mbind option_bind].
    destruct (Z.eqb_spec (Z.of_nat b) (-1)) as [|_]; [lia|]. simpl.
    eexists. split; [done|].
    rewrite length_app, concat_app, Hlen, Hcat. simpl.
    split; [lia|]. split; [|done].
    unfold substring_from. rewrite Nat2Z.id, Nat.min_l, app_nil_r by lia.
    replace (drop b patch) with (drop (b - j) (drop j patch))
      by (rewrite drop_drop; f_equal; lia).
    apply take_drop.
Qed.

(** C1 fails as stated: the line before the first header is in none of
    the returned substrings. *)
Lemma splitPatch_preamble_counterexample :
  let hunk := js "@@ -1,1 +1,1 @@" ++ [10%N] ++ js "+a" in
  let patch := js "diff" ++ [10%N] ++ hunk in
  length (header_lines patch) = 1%nat
  ∧ splitPatch (Some patch) = Some [hunk]
  ∧ concat [hunk] ≠ patch.
Proof. by vm_compute. Qed.

Lemma splitPatch_spec_witness :
  let patch := js_lines ["index 1..2"; "+a"] in
  header_lines patch = [] ∧ splitPatch (Some patch) = Some [].
Proof.
  intros patch.
  assert (header_lines patch = []) as Hnone by by vm_compute.
  split; [done|].
  destruct (splitPatch_spec patch) as (_ & result & -> & _ & _ & Hnil).
  by rewrite (Hnil Hnone).
Defined.

(** Two hunks: each piece runs from its header to the next. *)
Example splitPatch_two_hunks :
  splitPatch
    (Some (js_lines ["@@ -1,2 +1,2 @@ f"; "-a"; "+b"; "@@ -9,1 +9,2 @@";
                     " c"; "+d"]))
  = Some [js_lines ["@@ -1,2 +1,2 @@ f"; "-a"; "+b"; ""];
          js_lines ["@@ -9,1 +9,2 @@"; " c"; "+d"]].
Proof. by vm_compute. Qed.

End SplitProperties.

(** * Further properties *)

(** ** Backoff delays *)

Section BackoffProperties.
Import RetryLogic.

(** X1. With a non-negative base delay and a non-negative cap, the delay
    is never negative and never above the cap (the given [maxDelay], or
    300000 when none is given). *)
Theorem backoff_within_cap attempt baseDelay maxDelay :
  0 ≤ baseDelay →
  0 ≤ default DEFAULT_MAX_DELAY maxDelay →
  0 ≤ calculateBackoffDelay attempt baseDelay maxDelay
      ≤ default DEFAULT_MAX_DELAY maxDelay.
Proof.
  intros Hb Hm. unfold calculateBackoffDelay.
  set (M := default DEFAULT_MAX_DELAY maxDelay) in *. clearbody M.
  cbv zeta.
  destruct (Z.eqb_spec baseDelay 0); [lia|].
  assert (0 < 2 ^ (if attempt <? 0 then 0 else attempt)).
  { apply Z.pow_pos_nonneg; [lia|]. destruct (Z.ltb_spec attempt 0); lia. }
  nia.
Qed.

Lemma backoff_within_cap_witness :
  0 ≤ 5000 ∧ 0 ≤ default DEFAULT_MAX_DELAY None
  ∧ 0 ≤ calculateBackoffDelay 9 5000 None ≤ 300000.
Proof.
  assert (0 ≤ 5000) as Hb by lia.
  assert (0 ≤ default DEFAULT_MAX_DELAY None) as Hm by by vm_compute.
  split; [done|]. split; [done|].
  exact (backoff_within_cap 9 5000 None Hb Hm).
Defined.

(** X2. With a non-negative base delay a later attempt never waits less
    than an earlier one. *)
Theorem backoff_monotone attempt attempt' baseDelay maxDelay :
  0 ≤ baseDelay →
  attempt ≤ attempt' →
  calculateBackoffDelay attempt baseDelay maxDelay
  ≤ calculateBackoffDelay attempt' baseDelay maxDelay.
Proof.
  intros Hb Hle. unfold calculateBackoffDelay.
  set (M := default DEFAULT_MAX_DELAY maxDelay) in *. clearbody M.
  cbv zeta.
  destruct (Z.eqb_spec baseDelay 0); [lia|].
  assert (2 ^ (if attempt <? 0 then 0 else attempt)
          ≤ 2 ^ (if attempt' <? 0 then 0 else attempt')).
  { apply Z.pow_le_mono_r; [lia|].
    destruct (Z.ltb_spec attempt 0), (Z.ltb_spec attempt' 0); lia. }
  nia.
Qed.

Lemma backoff_monotone_witness :
  0 ≤ 2000 ∧ 1 ≤ 4
  ∧ calculateBackoffDelay 1 2000 None ≤ calculateBackoffDelay 4 2000 None.
Proof.
  assert (0 ≤ 2000) as Hb by lia. assert (1 ≤ 4) as Hle by lia.
  split; [done|]. split; [done|].
  exact (backoff_monotone 1 4 2000 None Hb Hle).
Defined.

(** X3. For a base delay that is not negative, the delay of an attempt
    that stays below the cap is twice the delay of the attempt before;
    the delay of attempt 0, when below the cap, is the base delay; and
    every negative attempt number gets the delay of attempt 0. *)
Theorem backoff_doubles_below_cap attempt baseDelay maxDelay :
  (0 ≤ baseDelay →
   0 ≤ attempt →
   calculateBackoffDelay (attempt + 1) baseDelay maxDelay
   < default DEFAULT_MAX_DELAY maxDelay →
   calculateBackoffDelay (attempt + 1) baseDelay maxDelay
   = 2 * calculateBackoffDelay attempt baseDelay maxDelay)
  ∧ (calculateBackoffDelay 0 baseDelay maxDelay
     < default DEFAULT_MAX_DELAY maxDelay →
     calculateBackoffDelay 0 baseDelay maxDelay = baseDelay)
  ∧ (attempt < 0 →
     calculateBackoffDelay attempt baseDelay maxDelay
     = calculateBackoffDelay 0 baseDelay maxDelay).
Proof.
  unfold calculateBackoffDelay.
  set (M := default DEFAULT_MAX_DELAY maxDelay) in *. clearbody M.
  cbv zeta. change (0 <? 0) with false. cbv iota.
  rewrite Z.pow_0_r, Z.mul_1_r.
  split; [|split].
  - intros Hb Ha.
    destruct (Z.eqb_spec baseDelay 0); [lia|].
    destruct (Z.ltb_spec (attempt + 1) 0); [lia|].
    destruct (Z.ltb_spec attempt 0); [lia|].
    rewrite Z.pow_add_r, Z.pow_1_r by lia.
    replace (baseDelay * (2 ^ attempt * 2))
      with (2 * (baseDelay * 2 ^ attempt)) by ring.
    assert (0 < 2 ^ attempt) by (apply Z.pow_pos_nonneg; lia).
    assert (0 ≤ baseDelay * 2 ^ attempt) by nia.
    lia.
  - destruct (Z.eqb_spec baseDelay 0); lia.
  - intros Ha. destruct (Z.ltb_spec attempt 0); [|lia].
    by rewrite Z.pow_0_r, Z.mul_1_r.
Qed.

Lemma backoff_doubles_below_cap_witness :
  calculateBackoffDelay (3 + 1) 1000 None = 2 * calculateBackoffDelay 3 1000 None
  ∧ calculateBackoffDelay 0 1000 None = 1000
  ∧ calculateBackoffDelay (-9) 1000 None = calculateBackoffDelay 0 1000 None.
Proof.
  assert (0 ≤ 1000) as Hb by lia. assert (0 ≤ 3) as Ha by lia.
  assert (calculateBackoffDelay (3 + 1) 1000 None
          < default DEFAULT_MAX_DELAY None) as Hlt by (vm_compute; done).
  assert (calculateBackoffDelay 0 1000 None
          < default DEFAULT_MAX_DELAY None) as Hlt0 by (vm_compute; done).
  assert (-9 < 0) as Hneg by lia.
  split; [|split].
  - exact (proj1 (backoff_doubles_below_cap 3 1000 None) Hb Ha Hlt).
  - exact (proj1 (proj2 (backoff_doubles_below_cap 3 1000 None)) Hlt0).
  - exact (proj2 (proj2 (backoff_doubles_below_cap (-9) 1000 None)) Hneg).
Defined.

(** X4. For a base delay of at least one millisecond and a cap that is
    not negative, the delay reaches the cap and stays there: it is the
    cap for every attempt number from the cap's value on. *)
Theorem backoff_reaches_cap attempt baseDelay maxDelay :
  1 ≤ baseDelay →
  0 ≤ default DEFAULT_MAX_DELAY maxDelay ≤ attempt →
  calculateBackoffDelay attempt baseDelay maxDelay
  = default DEFAULT_MAX_DELAY maxDelay.
Proof.
  intros Hb [Hm Ha]. unfold calculateBackoffDelay.
  set (M := default DEFAULT_MAX_DELAY maxDelay) in *. clearbody M.
  cbv zeta.
  destruct (Z.eqb_spec baseDelay 0); [lia|].
  destruct (Z.ltb_spec attempt 0); [lia|].
  assert (attempt < 2 ^ attempt) by (apply Z.pow_gt_lin_r; lia).
  nia.
Qed.

Lemma backoff_reaches_cap_witness :
  1 ≤ 1 ∧ 0 ≤ default DEFAULT_MAX_DELAY (Some 8) ≤ 8
  ∧ calculateBackoffDelay 8 1 (Some 8) = 8.
Proof.
  assert (1 ≤ 1) as Hb by lia.
  assert (0 ≤ default DEFAULT_MAX_DELAY (Some 8) ≤ 8) as Hm by (simpl; lia).
  split; [done|]. split; [done|].
  exact (backoff_reaches_cap 8 1 (Some 8) Hb Hm).
Defined.

End BackoffProperties.

(** ** Progress and resumption *)

Section ProgressProperties.
Import ReviewState ResumeHelper.

Lemma reachable_counters commit names s :
  reachable commit names s → counters_exact s.
Proof.
  induction 1 as [now|now s fn st o s' _ IH Hu|now s ph _ IH
                  |now now' s e ty _ IH];
    [|by eapply counters_exact_update|done..].
  unfold counters_exact; simpl. by rewrite !count_status_pending.
Qed.

(** The commit, the version and the list of filenames never change. *)
Lemma reachable_identity commit names s :
  reachable commit names s →
  File.filename <$> files s = names
  ∧ commitId s = commit
  ∧ totalFiles s = Z.of_nat (length names)
  ∧ version s = js "1.0".
Proof.
  induction 1 as [now|now s fn st o s' _ IH Hu|now s ph _ IH
                  |now now' s e ty _ IH]; [|
    |done..].
  - simpl. split; [|done]. rewrite <-list_fmap_compose.
    by rewrite list_fmap_id.
  - apply updateFileStatus_inr in Hu as (i & old & Hi & Hname & _ & ->).
    simpl. destruct IH as (IH & ? & ? & ?). split; [|done].
    rewrite list_fmap_insert. simpl. rewrite <-IH. apply list_insert_id.
    by rewrite list_lookup_fmap, Hi, <-Hname.
Qed.

(** X5. Two states of the same review, however far each has got, are
    recognised as the same review: in particular a stored state and the
    fresh state of a new run over the same commit and files. *)
Theorem reachable_same_review commit names s s' :
  reachable commit names s →
  reachable commit names s' →
  isSameReview (Some s) (Some s') = true.
Proof.
  intros (Hn & Hc & _)%reachable_identity (Hn' & Hc' & _)%reachable_identity.
  apply isSameReview_Some. unfold filename_set.
  rewrite Hc, Hc', Hn, Hn'. repeat split; [|done].
  by rewrite <-(length_fmap File.filename (files s)),
    <-(length_fmap File.filename (files s')), Hn, Hn'.
Qed.

Lemma reachable_same_review_witness :
  let names := [js "a.ts"; js "b.ts"] in
  let s := createReviewState (js "t0") (js "abc123") names in
  let s' := updatePhase (js "t2") (recordError (js "t1") (js "t1") s
                                     (js "429") le_rate_limit)
              phase_reviewing in
  reachable (js "abc123") names s ∧ reachable (js "abc123") names s'
  ∧ isSameReview (Some s) (Some s') = true.
Proof.
  intros names s s'.
  assert (reachable (js "abc123") names s) as Hs by apply reach_create.
  assert (reachable (js "abc123") names s') as Hs'
    by (apply reach_updatePhase, reach_recordError, Hs).
  split; [done|]. split; [done|].
  exact (reachable_same_review (js "abc123") names s s' Hs Hs').
Defined.

Lemma count_status_le_length p l : count_status p l ≤ Z.of_nat (length l).
Proof. unfold count_status. pose proof (length_filter (λ f, Is_true (p (File.status f))) l). lia. Qed.

Lemma count_status_settled l :
  count_status is_completed l + count_status is_failed l
  = count_status is_settled l
  ∧ count_status is_skipped l ≤ count_status is_completed l.
Proof.
  induction l as [|f l [IH1 IH2]]; [done|].
  rewrite !count_status_cons. destruct (File.status f); simpl; lia.
Qed.

Lemma count_status_all p l :
  count_status p l = Z.of_nat (length l)
  ↔ Forall (λ f, p (File.status f) = true) l.
Proof.
  induction l as [|f l IH]; [by split; [constructor|]|].
  rewrite count_status_cons, Forall_cons. simpl length.
  pose proof (count_status_le_length p l).
  destruct (p (File.status f)); simpl; [|split; [lia|by intros []]].
  rewrite <-IH. split; [intros ?; split; [done|lia]|intros [_ ?]; lia].
Qed.

(** X6. In every reachable state [totalFiles] is the number of files,
    the completed and the failed files together are at most
    [totalFiles], and the skipped files are among the completed ones. *)
Theorem reachable_counter_bounds commit names s :
  reachable commit names s →
  totalFiles s = Z.of_nat (length (files s))
  ∧ completedFiles s + failedFiles s ≤ totalFiles s
  ∧ skippedFiles s ≤ completedFiles s.
Proof.
  intros Hr. destruct (reachable_counters _ _ _ Hr) as (Hc & Hf & Hs).
  destruct (reachable_identity _ _ _ Hr) as (Hn & _ & Ht & _).
  assert (totalFiles s = Z.of_nat (length (files s))) as Hlen
    by by rewrite Ht, <-Hn, length_fmap.
  destruct (count_status_settled (files s)) as [Hsum Hsk].
  pose proof (count_status_le_length is_settled (files s)).
  repeat split; [done|lia..].
Qed.

Lemma reachable_counter_bounds_witness :
  let names := [js "a.ts"; js "b.ts"] in
  let s := recordError (js "t1") (js "t1")
             (createReviewState (js "t0") (js "abc123") names)
             (js "timed out") le_timeout in
  reachable (js "abc123") names s
  ∧ totalFiles s = Z.of_nat (length (files s))
  ∧ completedFiles s + failedFiles s ≤ totalFiles s
  ∧ skippedFiles s ≤ completedFiles s.
Proof.
  intros names s.
  assert (reachable (js "abc123") names s) as Hs
    by apply reach_recordError, reach_create.
  split; [done|]. exact (reachable_counter_bounds (js "abc123") names s Hs).
Defined.

Lemma complete_all_settled commit names s :
  reachable commit names s →
  isReviewComplete s = true
  ↔ Forall (λ f, is_settled (File.status f) = true) (files s).
Proof.
  intros Hr. destruct (reachable_counters _ _ _ Hr) as (Hc & Hf & _).
  destruct (reachable_identity _ _ _ Hr) as (Hn & _ & Ht & _).
  unfold isReviewComplete. rewrite bool_decide_eq_true, Hc, Hf.
  rewrite (proj1 (count_status_settled (files s))), <-count_status_all.
  by rewrite Ht, <-Hn, length_fmap.
Qed.

(** X7. In a reachable state [isReviewComplete] holds exactly when every
    file is reviewed, skipped or failed. *)
Theorem isReviewComplete_iff_settled commit names s :
  reachable commit names s →
  isReviewComplete s = true
  ↔ Forall (λ f, is_settled (File.status f) = true) (files s).
Proof. apply complete_all_settled. Qed.

Lemma isReviewComplete_iff_settled_witness :
  let names := [js "a.ts"] in
  let s := createReviewState (js "t0") (js "abc123") names in
  reachable (js "abc123") names s
  ∧ (isReviewComplete s = true
     ↔ Forall (λ f, is_settled (File.status f) = true) (files s)).
Proof.
  intros names s.
  assert (reachable (js "abc123") names s) as Hs by apply reach_create.
  split; [done|].
  exact (isReviewComplete_iff_settled (js "abc123") names s Hs).
Defined.

Lemma getFilesToProcess_wanted s :
  getFilesToProcess s
  = filter (λ f, Is_true (wanted (phase s) (File.status f))) (files s).
Proof.
  unfold getFilesToProcess, wanted. by destruct (bool_decide _).
Qed.

(** X8. Once a reachable state is complete, the only files
    [getFilesToProcess] still returns are failed ones, and only in the
    summarizing phase; in the reviewing phase it returns none. *)
Theorem complete_leaves_failed_only commit names s f :
  reachable commit names s →
  isReviewComplete s = true →
  f ∈ getFilesToProcess s →
  File.status f = failed ∧ phase s = phase_summarizing.
Proof.
  intros Hr Hc. rewrite (complete_all_settled _ _ _ Hr) in Hc.
  rewrite getFilesToProcess_wanted.
  intros [Hw Hf]%list_elem_of_filter.
  rewrite Forall_forall in Hc. specialize (Hc f Hf).
  unfold wanted in Hw. destruct (phase s), (File.status f); done.
Qed.

Lemma complete_leaves_failed_only_witness :
  let names := [js "a.ts"] in
  let s0 := createReviewState (js "t0") (js "abc123") names in
  match updateFileStatus (js "t1") s0 (js "a.ts") failed None with
  | inr s =>
      reachable (js "abc123") names s
      ∧ isReviewComplete s = true
      ∧ ∃ f, f ∈ getFilesToProcess s
             ∧ File.status f = failed ∧ phase s = phase_summarizing
  | inl _ => False
  end.
Proof.
  intros names s0.
  destruct (updateFileStatus (js "t1") s0 (js "a.ts") failed None)
    as [e|s] eqn:Hu; [by vm_compute in Hu|].
  assert (reachable (js "abc123") names s) as Hs
    by (eapply reach_updateFileStatus; [apply reach_create|exact Hu]).
  vm_compute in Hu. injection Hu as <-.
  assert (isReviewComplete
            (mkState (js "1.0") (js "t0") (js "t1") (js "abc123") 1 0 1 0
               phase_summarizing
               [File.mk (js "a.ts") failed None (js "t1") None None] None)
          = true) as Hc by done.
  split; [exact Hs|]. split; [exact Hc|].
  eexists. split; [apply list_elem_of_here|].
  eapply (complete_leaves_failed_only _ _ _ _ Hs Hc). apply list_elem_of_here.
Defined.

Lemma names_to_process s g :
  g ∈ (File.filename <$> getFilesToProcess s)
  ↔ ∃ j f, files s !! j = Some f ∧ File.filename f = g
           ∧ wanted (phase s) (File.status f) = true.
Proof.
  rewrite getFilesToProcess_wanted, list_elem_of_fmap. split.
  - intros (f & -> & [Hw Hf]%list_elem_of_filter).
    apply list_elem_of_lookup in Hf as [j Hj].
    exists j, f. repeat split; [done|]. by apply Is_true_true.
  - intros (j & f & Hj & <- & Hw). exists f. split; [done|].
    apply list_elem_of_filter. split; [by apply Is_true_true|].
    by eapply list_elem_of_lookup_2.
Qed.

(** X9. In a state whose filenames are distinct, [updateFileStatus]
    changes what [getFilesToProcess] returns for the updated file only:
    afterwards that file is returned exactly when its new status is one
    the current phase asks for (so never once it is reviewed or
    skipped), and every other file is returned exactly as before. *)
Theorem updateFileStatus_files_to_process now s filename status options s' g :
  NoDup (File.filename <$> files s) →
  updateFileStatus now s filename status options = inr s' →
  g ∈ (File.filename <$> getFilesToProcess s')
  ↔ (g = filename ∧ wanted (phase s) status = true)
    ∨ (g ≠ filename ∧ g ∈ (File.filename <$> getFilesToProcess s)).
Proof.
  intros Hnd (i & old & Hi & Hname & _ & ->)%updateFileStatus_inr.
  rewrite !names_to_process. simpl.
  assert (∀ j f, files s !! j = Some f → File.filename f = filename → j = i)
    as Honly.
  { intros j f Hj Hf. eapply (NoDup_lookup _ _ _ _ Hnd).
    - by rewrite list_lookup_fmap, Hj.
    - rewrite list_lookup_fmap, Hi. simpl. congruence. }
  split.
  - intros (j & f & Hj & <- & Hw).
    apply list_lookup_insert_Some in Hj as [(-> & <- & _)|[Hne Hj]].
    + left. split; [done|exact Hw].
    + right. split; [|exists j, f; by repeat split].
      intros Hf. by apply Hne, eq_sym, (Honly j f).
  - intros [[-> Hw]|[Hne (j & f & Hj & <- & Hw)]].
    + eexists i, _.
      split; [apply list_lookup_insert_eq; by eapply lookup_lt_Some|].
      split; [done|exact Hw].
    + exists j, f. split; [|done].
      rewrite list_lookup_insert_ne; [done|].
      intros <-. apply Hne. by simplify_eq.
Qed.

Lemma updateFileStatus_files_to_process_witness :
  let s := createReviewState (js "t0") (js "abc123") [js "a.ts"; js "b.ts"] in
  match updateFileStatus (js "t1") s (js "a.ts") reviewed None with
  | inr s' =>
      NoDup (File.filename <$> files s)
      ∧ (js "a.ts" ∉ (File.filename <$> getFilesToProcess s'))
      ∧ js "b.ts" ∈ (File.filename <$> getFilesToProcess s')
  | inl _ => False
  end.
Proof.
  intros s.
  assert (js "a.ts" ≠ js "b.ts") as Hab by by vm_compute.
  assert (NoDup (File.filename <$> files s)) as Hnd.
  { simpl. apply NoDup_cons. split; [|apply NoDup_singleton].
    by rewrite list_elem_of_singleton. }
  destruct (updateFileStatus (js "t1") s (js "a.ts") reviewed None)
    as [e|s'] eqn:Hu; [by vm_compute in Hu|].
  split; [done|]. split.
  - rewrite (updateFileStatus_files_to_process _ _ _ _ _ _ _ Hnd Hu).
    by intros [[_ ?]|[? _]].
  - rewrite (updateFileStatus_files_to_process _ _ _ _ _ _ _ Hnd Hu).
    right. split; [done|]. apply names_to_process.
    by exists 1%nat, (File.mk (js "b.ts") pending None (js "t0") None None).
Defined.

Lemma filter_all {B} (P : B → Prop) `{∀ x, Decision (P x)} (l : list B) :
  Forall P l → filter P l = l.
Proof.
  induction 1 as [|x l Hx _ IH]; [done|].
  by rewrite filter_cons_True, IH.
Qed.

Section Files.
Context {A : Type} (filename : A → jsstring).

(** X10. Against the fresh state of a run over the same files
    [filterFilesForResume] keeps every file. *)
Theorem filterFilesForResume_fresh now commit (files : list A) ph :
  filterFilesForResume filename files
    (Some (createReviewState now commit (filename <$> files))) ph
  = files.
Proof.
  unfold filterFilesForResume. rewrite getFilesToProcess_wanted. simpl.
  set (entries := (λ f, File.mk f pending None now None None)
                  <$> (filename <$> files)).
  assert (filter (λ f, Is_true (wanted phase_summarizing (File.status f)))
            entries = entries) as ->.
  { subst entries. generalize (filename <$> files). intros l.
    induction l as [|x l IH]; [done|].
    rewrite fmap_cons, filter_cons_True by done. by rewrite IH. }
  assert (File.filename <$> entries = filename <$> files) as ->.
  { subst entries. rewrite <-list_fmap_compose. apply list_fmap_id. }
  apply filter_all, Forall_forall. intros f Hf.
  by apply elem_of_list_to_set, list_elem_of_fmap_2.
Qed.

(** X11. Without a state every file is kept.  With a state the result
    is a subsequence of the input in the input's order, it does not
    depend on the [phase] argument (only on the state's own phase),
    every file it keeps is known to the state under a status the
    state's phase asks for, and filtering twice changes nothing: a file
    the state does not know is dropped. *)
Theorem filterFilesForResume_sublist (files : list A) s ph ph' f :
  filterFilesForResume filename files None ph = files
  ∧ sublist (filterFilesForResume filename files (Some s) ph) files
  ∧ filterFilesForResume filename files (Some s) ph
    = filterFilesForResume filename files (Some s) ph'
  ∧ filterFilesForResume filename
      (filterFilesForResume filename files (Some s) ph) (Some s) ph
    = filterFilesForResume filename files (Some s) ph
  ∧ (f ∈ filterFilesForResume filename files (Some s) ph →
     ∃ e, e ∈ ReviewState.files s
          ∧ File.filename e = filename f
          ∧ wanted (phase s) (File.status e) = true).
Proof.
  split; [done|]. split; [apply sublist_filter|]. split; [done|]. split.
  - unfold filterFilesForResume. rewrite list_filter_filter.
    apply list_filter_iff. tauto.
  - unfold filterFilesForResume.
    intros [Hin _]%list_elem_of_filter.
    apply elem_of_list_to_set, names_to_process in Hin
      as (j & e & Hj & He & Hw).
    exists e. split; [by eapply list_elem_of_lookup_2|done].
Qed.

End Files.

Lemma filterFilesForResume_sublist_witness :
  let s := createReviewState (js "t0") (js "abc123") [js "a.ts"] in
  js "a.ts" ∈ filterFilesForResume id [js "new.ts"; js "a.ts"] (Some s)
                phase_reviewing
  ∧ ∃ e, e ∈ files s ∧ File.filename e = js "a.ts"
         ∧ wanted (phase s) (File.status e) = true.
Proof.
  intros s.
  assert (js "a.ts" ∈ filterFilesForResume id [js "new.ts"; js "a.ts"]
                       (Some s) phase_reviewing) as Hin.
  { unfold filterFilesForResume. apply list_elem_of_filter.
    split; [|apply list_elem_of_further, list_elem_of_here].
    apply elem_of_list_to_set, names_to_process.
    by exists 0%nat, (File.mk (js "a.ts") pending None (js "t0") None None). }
  split; [done|].
  destruct (filterFilesForResume_sublist id [js "new.ts"; js "a.ts"] s
              phase_reviewing phase_reviewing (js "a.ts"))
    as (_ & _ & _ & _ & Hknown).
  exact (Hknown Hin).
Defined.

(** X12. Resumption is never attempted when it is disabled or when
    there is no state; otherwise it is attempted exactly when filtering
    the state's own files leaves some file to process. *)
Theorem shouldResumeReview_iff_filter enableResume s ph :
  shouldResumeReview false (Some s) = false
  ∧ shouldResumeReview enableResume None = false
  ∧ (shouldResumeReview true (Some s) = true
     ↔ filterFilesForResume id (File.filename <$> files s) (Some s) ph ≠ []).
Proof.
  split; [done|]. split; [by destruct enableResume|].
  unfold shouldResumeReview, filterFilesForResume. simpl.
  rewrite Nat.ltb_lt. split.
  - intros Hlen Hnil.
    destruct (getFilesToProcess s) as [|f l] eqn:Hg; [simpl in Hlen; lia|].
    assert (f ∈ files s) as Hf.
    { rewrite getFilesToProcess_wanted in Hg.
      assert (f ∈ f :: l) as Hin by left. rewrite <-Hg in Hin.
      by apply list_elem_of_filter in Hin as [_ ?]. }
    eapply (filter_nil_not_elem_of _ _ (File.filename f) Hnil);
      [|by apply list_elem_of_fmap_2].
    simpl. set_solver.
  - intros Hne. destruct (getFilesToProcess s) as [|f l]; [|simpl; lia].
    destruct Hne. simpl.
    induction (File.filename <$> files s) as [|x l IH]; [done|].
    rewrite filter_cons_False by set_solver. done.
Qed.

End ProgressProperties.

(** ** The token budget *)

Section BudgetProperties.
Import Review.
Variable getTokenCount : jsstring → Z.
Variable requestTokens : Z.
Variable getCommentChainForPatch : Z → Z → jsstring.

Lemma patch_tokens_cons (p : Patch) patches :
  patch_tokens getTokenCount (p :: patches)
  = getTokenCount p.2 + patch_tokens getTokenCount patches.
Proof. done. Qed.

Lemma calculate_loop_greedy patches tokens n :
  ∃ k : nat,
    calculate_loop getTokenCount requestTokens patches tokens n
    = n + Z.of_nat k
    ∧ (k ≤ length patches)%nat
    ∧ (∀ j, (0 < j ≤ k)%nat →
       tokens + patch_tokens getTokenCount (take j patches) ≤ requestTokens)
    ∧ ((k < length patches)%nat →
       requestTokens
       < tokens + patch_tokens getTokenCount (take (S k) patches)).
Proof.
  revert tokens n.
  induction patches as [|[[s e] patch] patches IH]; intros tokens n.
  { exists 0%nat. simpl. repeat split; lia. }
  cbn [calculate_loop].
  destruct (Z.gtb_spec (tokens + getTokenCount patch) requestTokens)
    as [Hgt|Hle].
  - exists 0%nat. repeat split; [lia|simpl; lia|lia|].
    intros _. cbn [take]. rewrite patch_tokens_cons. simpl. lia.
  - destruct (IH (tokens + getTokenCount patch) (n + 1))
      as (k & -> & Hk & Hfit & Hnext).
    exists (S k). split; [lia|]. split; [simpl; lia|]. split.
    + intros [|j] Hj; [lia|]. cbn [take]. rewrite patch_tokens_cons. simpl.
      destruct j as [|j]; [simpl; lia|].
      specialize (Hfit (S j) ltac:(lia)). lia.
    + intros Hlt. cbn [take]. rewrite patch_tokens_cons. simpl.
      simpl in Hlt. specialize (Hnext ltac:(lia)). cbn [take] in Hnext. lia.
Qed.

(** X13. [calculatePatchesToPack] returns the length of the longest
    prefix of the patches that fits patch by patch: the count is between
    0 and the number of patches; the base tokens and the tokens of the
    first [j] patches stay within the request budget for every [j] up to
    the count; and when a patch is left over, adding the next one would
    exceed the budget. *)
Theorem calculatePatchesToPack_greedy patches baseTokens :
  ∃ k : nat,
    calculatePatchesToPack getTokenCount requestTokens patches baseTokens
    = Z.of_nat k
    ∧ (k ≤ length patches)%nat
    ∧ (∀ j, (0 < j ≤ k)%nat →
       baseTokens + patch_tokens getTokenCount (take j patches)
       ≤ requestTokens)
    ∧ ((k < length patches)%nat →
       requestTokens
       < baseTokens + patch_tokens getTokenCount (take (S k) patches)).
Proof.
  destruct (calculate_loop_greedy patches baseTokens 0) as (k & Hk & ?).
  exists k. by rewrite <-(Z.add_0_l (Z.of_nat k)).
Qed.

Lemma pack_loop_sections patches patchesToPack tokens patchesPacked
    ins_patches :
  let k := (Z.to_nat (patchesToPack - patchesPacked)
            `min` length patches)%nat in
  pack_loop getTokenCount requestTokens getCommentChainForPatch patches
    patchesToPack tokens patchesPacked ins_patches
  = (patchesPacked + Z.of_nat k,
     ins_patches
     ++ concat (change_section getCommentChainForPatch <$> take k patches)).
Proof.
  revert tokens patchesPacked ins_patches.
  induction patches as [|[[s e] patch] patches IH];
    intros tokens patchesPacked ins_patches k.
  { subst k. rewrite Nat.min_0_r. simpl.
    by rewrite Z.add_0_r, app_nil_r. }
  cbn [pack_loop].
  destruct (Z.geb_spec patchesPacked patchesToPack) as [Hge|Hlt].
  - subst k. replace (Z.to_nat (patchesToPack - patchesPacked)) with 0%nat
      by lia.
    simpl. by rewrite Z.add_0_r, app_nil_r.
  - rewrite IH. subst k.
    replace (Z.to_nat (patchesToPack - patchesPacked))
      with (S (Z.to_nat (patchesToPack - (patchesPacked + 1)))) by lia.
    cbn [length]. rewrite <-Nat.succ_min_distr.
    cbn [take fmap list_fmap concat].
    f_equal; [lia|]. unfold change_section. cbn [fst snd].
    destruct (bool_decide (getCommentChainForPatch s e = [])); cbn [negb];
      by rewrite <-!(assoc_L (++)), ?app_nil_l.
Qed.

(** X14. With a pull request present, [packPatchesIntoInputs] packs the
    first [patchesToPack] patches, or all of them when there are fewer
    (none when [patchesToPack] is not positive), returns that number, and
    appends to [ins.patches] one section per packed patch, in order: the
    patch between two newlines, the comment chain block when the chain
    is not empty, and the end marker.  Without a pull request it returns
    0 and leaves [ins.patches] as it was. *)
Theorem packPatchesIntoInputs_sections pull_number ins_patches patches
    patchesToPack baseTokens :
  let k := (Z.to_nat patchesToPack `min` length patches)%nat in
  packPatchesIntoInputs getTokenCount requestTokens getCommentChainForPatch
    (Some pull_number) ins_patches patches patchesToPack baseTokens
  = (Z.of_nat k,
     ins_patches
     ++ concat (change_section getCommentChainForPatch <$> take k patches))
  ∧ packPatchesIntoInputs getTokenCount requestTokens
      getCommentChainForPatch None ins_patches patches patchesToPack
      baseTokens
    = (0, ins_patches).
Proof.
  intros k. split; [|done]. unfold packPatchesIntoInputs.
  rewrite pack_loop_sections. subst k.
  by rewrite Z.sub_0_r, Z.add_0_l.
Qed.

(** X15. When the number to pack is the one [calculatePatchesToPack]
    returns, [packPatchesIntoInputs] packs exactly that many patches;
    and the number is 0, which makes [doReview] skip the file as "diff
    too large", exactly when there is no patch or the first patch alone
    does not fit the budget on top of the base tokens. *)
Theorem pack_calculated_count pull_number ins_patches patches baseTokens :
  let n :=
    calculatePatchesToPack getTokenCount requestTokens patches baseTokens in
  (packPatchesIntoInputs getTokenCount requestTokens getCommentChainForPatch
     (Some pull_number) ins_patches patches n baseTokens).1 = n
  ∧ (n = 0
     ↔ match patches with
       | [] => True
       | p :: _ => requestTokens < baseTokens + getTokenCount p.2
       end).
Proof.
  intros n. subst n.
  destruct (calculate_loop_greedy patches baseTokens 0)
    as (k & Hk & Hlen & Hfit & Hnext).
  unfold calculatePatchesToPack. rewrite Hk, Z.add_0_l. split.
  - unfold packPatchesIntoInputs. rewrite pack_loop_sections.
    simpl. lia.
  - destruct patches as [|p patches]; [simpl in Hlen; split; [done|lia]|].
    split.
    + intros Hz. assert (k = 0%nat) as -> by lia.
      specialize (Hnext ltac:(simpl; lia)). cbn [take] in Hnext.
      rewrite patch_tokens_cons in Hnext. simpl in Hnext. lia.
    + intros Hbig. destruct k as [|k]; [done|].
      specialize (Hfit 1%nat ltac:(lia)). cbn [take] in Hfit.
      rewrite patch_tokens_cons in Hfit. simpl in Hfit. lia.
Qed.

End BudgetProperties.

(** ** From the diff to the patches *)

Section HunkProperties.
Import Review.

Lemma lit_app p x : lit p (p ++ x) = Some x.
Proof.
  induction p as [|c p IH]; simpl; [by destruct x|].
  by rewrite bool_decide_eq_true_2.
Qed.

Lemma digits1_digits s ds r :
  digits1 s = Some (ds, r) →
  s = ds ++ r ∧ ds ≠ [] ∧ Forall (λ c, is_digit c = true) ds.
Proof.
  unfold digits1. pose proof (take_drop_while is_digit s) as Happ.
  pose proof (take_while_Forall is_digit s) as Hall.
  destruct (take_while is_digit s) as [|c ds']; [done|].
  by intros [= <- <-].
Qed.

Lemma digits1_app ds c r :
  ds ≠ [] → Forall (λ d, is_digit d = true) ds → is_digit c = false →
  digits1 (ds ++ c :: r) = Some (ds, c :: r).
Proof.
  intros Hne Hall Hc. unfold digits1.
  assert (take_while is_digit (ds ++ c :: r) = ds
          ∧ drop_while is_digit (ds ++ c :: r) = c :: r) as [-> ->].
  { clear Hne. induction Hall as [|d ds Hd _ [IH1 IH2]]; simpl.
    - by rewrite Hc.
    - by rewrite Hd, IH1, IH2. }
  by destruct ds.
Qed.

(** A header read at the head of [s] is read in the same way whatever
    follows it. *)
Lemma header_prefix s g rest :
  header s = Some (g, rest) →
  ∃ h, s = h ++ rest
       ∧ (∀ x, header (h ++ x) = Some (g, x))
       ∧ Forall (λ c, is_digit c = true) (group4 g)
       ∧ Forall (λ c, is_digit c = true) (group5 g).
Proof.
  unfold header. intros H.
  destruct (lit (js "@@ -") s) as [s1|] eqn:E1; cbn [mbind option_bind] in H;
    [|discriminate].
  destruct (digits1 s1) as [[g2 s2]|] eqn:E2; cbn [mbind option_bind] in H;
    [|discriminate].
  destruct (lit (js ",") s2) as [s3|] eqn:E3; cbn [mbind option_bind] in H;
    [|discriminate].
  destruct (digits1 s3) as [[g3 s4]|] eqn:E4; cbn [mbind option_bind] in H;
    [|discriminate].
  destruct (lit (js " +") s4) as [s5|] eqn:E5; cbn [mbind option_bind] in H;
    [|discriminate].
  destruct (digits1 s5) as [[g4 s6]|] eqn:E6; cbn [mbind option_bind] in H;
    [|discriminate].
  destruct (lit (js ",") s6) as [s7|] eqn:E7; cbn [mbind option_bind] in H;
    [|discriminate].
  destruct (digits1 s7) as [[g5 s8]|] eqn:E8; cbn [mbind option_bind] in H;
    [|discriminate].
  destruct (lit (js " @@") s8) as [s9|] eqn:E9; cbn [mbind option_bind] in H;
    [|discriminate].
  injection H as <- <-.
  apply lit_Some in E1, E3, E5, E7, E9.
  apply digits1_digits in E2 as (-> & N2 & F2), E4 as (-> & N4 & F4),
    E6 as (-> & N6 & F6), E8 as (-> & N8 & F8).
  subst.
  exists (js "@@ -" ++ g2 ++ js "," ++ g3 ++ js " +" ++ g4 ++ js "," ++ g5
          ++ js " @@").
  split; [by rewrite <-!(assoc_L (++))|]. split; [|done]. intros x.
  rewrite <-!(assoc_L (++)), lit_app. cbn [mbind option_bind].
  change (js "," ++ g3 ++ js " +" ++ g4 ++ js "," ++ g5 ++ js " @@" ++ x)
    with (44%N :: g3 ++ js " +" ++ g4 ++ js "," ++ g5 ++ js " @@" ++ x).
  rewrite (digits1_app g2) by done. cbn [mbind option_bind].
  change (44%N :: g3 ++ js " +" ++ g4 ++ js "," ++ g5 ++ js " @@" ++ x)
    with (js "," ++ g3 ++ js " +" ++ g4 ++ js "," ++ g5 ++ js " @@" ++ x).
  rewrite lit_app. cbn [mbind option_bind].
  change (js " +" ++ g4 ++ js "," ++ g5 ++ js " @@" ++ x)
    with (32%N :: 43%N :: g4 ++ js "," ++ g5 ++ js " @@" ++ x).
  rewrite (digits1_app g3) by done. cbn [mbind option_bind].
  change (32%N :: 43%N :: g4 ++ js "," ++ g5 ++ js " @@" ++ x)
    with (js " +" ++ g4 ++ js "," ++ g5 ++ js " @@" ++ x).
  rewrite lit_app. cbn [mbind option_bind].
  change (js "," ++ g5 ++ js " @@" ++ x)
    with (44%N :: g5 ++ js " @@" ++ x).
  rewrite (digits1_app g4) by done. cbn [mbind option_bind].
  change (44%N :: g5 ++ js " @@" ++ x) with (js "," ++ g5 ++ js " @@" ++ x).
  rewrite lit_app. cbn [mbind option_bind].
  change (js " @@" ++ x) with (32%N :: 64%N :: 64%N :: x).
  rewrite (digits1_app g5) by done. cbn [mbind option_bind].
  change (32%N :: 64%N :: 64%N :: x) with (js " @@" ++ x).
  by rewrite lit_app.
Qed.

Lemma header_take s g rest n :
  header s = Some (g, rest) →
  (length s - length rest ≤ n)%nat →
  ∃ rest', header (take n s) = Some (g, rest').
Proof.
  intros (h & -> & Hx & _)%header_prefix Hn.
  rewrite length_app in Hn.
  rewrite take_app, (take_ge h) by lia. eauto.
Qed.

Lemma header_line_match_header s len :
  header_line_match s = Some len →
  ∃ g rest, header s = Some (g, rest)
            ∧ (length s - length rest ≤ len)%nat.
Proof.
  unfold header_line_match.
  destruct (header s) as [[g rest]|]; simpl; [|done].
  intros [= <-]. exists g, rest. split; [done|lia].
Qed.

Lemma search_Some_match {A} (m : jsstring → option A) bol s i j a :
  search m bol s i = Some (j, a) →
  ∃ k, j = (i + k)%nat ∧ (k ≤ length s)%nat ∧ m (drop k s) = Some a.
Proof.
  revert bol i. induction s as [|c s IH]; intros bol i; cbn [search].
  - destruct bol; [|done]. destruct (m []) eqn:Hm; [|done].
    intros [= <- <-]. exists 0%nat. rewrite Nat.add_0_r. by repeat split.
  - assert (search m (is_line_terminator c) s (S i) = Some (j, a) →
            ∃ k, j = (i + k)%nat ∧ (k ≤ length (c :: s))%nat
                 ∧ m (drop k (c :: s)) = Some a) as Hnext.
    { intros (k & -> & ? & ?)%IH. exists (S k).
      repeat split; [lia|simpl; lia|done]. }
    destruct bol; [|done].
    destruct (m (c :: s)) eqn:Hm; [|done].
    intros [= <- <-]. exists 0%nat. rewrite Nat.add_0_r.
    repeat split; [lia|done].
Qed.

Lemma exec_match patch lastIndex j len :
  exec header_line_match patch lastIndex = Some (j, len) →
  header_line_match (drop j patch) = Some len.
Proof.
  unfold exec. destruct (_ <? _)%nat; [done|].
  intros (k & -> & _ & Hm)%search_Some_match.
  by rewrite drop_drop in Hm.
Qed.

Lemma tail_chain patch n lastIndex :
  (length patch - lastIndex ≤ n)%nat →
  (lastIndex ≤ length patch)%nat →
  chain patch lastIndex (tail_lines patch lastIndex).
Proof.
  revert lastIndex. induction n as [|n IH]; intros li Hn Hli;
    (destruct (exec header_line_match patch li) as [[j len]|] eqn:He;
     [|by rewrite (exec_None _ _ Hli He)]);
    destruct (exec_Some _ _ _ _ Hli He) as (Hj & Hlen & Hend & ->);
    [lia|].
  cbn [chain]. split; [done|]. exists len.
  split; [by eapply exec_match|]. split; [done|]. apply IH; lia.
Qed.

(** Every piece the run pushes starts with a header of its own. *)
Lemma run_matches_pieces patch ms a la result :
  header_line_match (drop a patch) = Some la →
  (a + la ≤ length patch)%nat →
  chain patch (a + la) ms →
  ∃ b lb pieces,
    run_matches patch ms (Z.of_nat a) result = (Z.of_nat b, result ++ pieces)
    ∧ length pieces = length ms
    ∧ Forall (λ h, is_Some (header h)) pieces
    ∧ header_line_match (drop b patch) = Some lb
    ∧ (b ≤ length patch)%nat.
Proof.
  revert a la result. induction ms as [|j ms IH]; intros a la result Ha Hla.
  - intros _. exists a, la, []. rewrite app_nil_r.
    split; [done|]. split; [done|]. split; [constructor|].
    split; [done|lia].
  - cbn [chain run_matches].
    intros (Hj & len & Hm & Hend & Hchain).
    destruct (Z.eqb_spec (Z.of_nat a) (-1)) as [|_]; [lia|].
    destruct (IH j len (result ++ [substring patch (Z.to_nat (Z.of_nat a)) j])
                Hm Hend Hchain)
      as (b & lb & pieces & -> & Hlen & Hgood & Hb & Hbl).
    exists b, lb, (substring patch a j :: pieces).
    rewrite Nat2Z.id, <-(assoc_L (++)).
    split; [done|]. split; [simpl; by rewrite Hlen|].
    split; [|done]. constructor; [|done].
    rewrite substring_between by lia.
    apply header_line_match_header in Ha as (g & rest & Hh & Hhl).
    destruct (header_take _ g rest (j - a) Hh) as [rest' ->]; [lia|done].
Qed.

(** The hunks of [splitPatch]: one per header line, each starting with
    its header. *)
Lemma splitPatch_hunks patch :
  ∃ hunks,
    splitPatch (Some patch) = Some hunks
    ∧ length hunks = length (header_lines patch)
    ∧ Forall (λ h, is_Some (header h)) hunks.
Proof.
  unfold splitPatch. rewrite splitPatch_loop_run by lia.
  pose proof (tail_chain patch (length patch) 0 ltac:(lia) ltac:(lia))
    as Hchain.
  change (tail_lines patch 0) with (header_lines patch) in *.
  destruct (header_lines patch) as [|j ms];
    cbn [run_matches mbind option_bind].
  { exists []. by repeat split. }
  destruct Hchain as (_ & len & Hm & Hend & Hchain).
  rewrite Z.eqb_refl.
  destruct (run_matches_pieces patch ms j len [] Hm Hend Hchain)
    as (b & lb & pieces & -> & Hlen & Hgood & Hb & Hbl).
  cbn [mbind option_bind].
  destruct (Z.eqb_spec (Z.of_nat b) (-1)) as [|_]; [lia|]. simpl.
  eexists. split; [done|]. rewrite length_app, Hlen. simpl.
  split; [lia|]. apply Forall_app. split; [done|].
  constructor; [|constructor].
  unfold substring_from. rewrite Nat2Z.id, Nat.min_l by lia.
  apply header_line_match_header in Hb as (g & rest & -> & _). eauto.
Qed.

Lemma parseInt_nonneg ds :
  Forall (λ c, is_digit c = true) ds → 0 ≤ parseInt ds.
Proof.
  unfold parseInt. intros Hall.
  assert (∀ n, 0 ≤ n →
            0 ≤ foldl (λ n c, 10 * n + (Z.of_N c - 48)) n ds) as Hgen.
  { induction Hall as [|c ds Hc _ IH]; intros n Hn; simpl; [done|].
    apply IH. unfold is_digit in Hc.
    apply andb_true_iff in Hc as [H1%N.leb_le H2]. lia. }
  by apply Hgen.
Qed.

(** On a text that starts with a header, [patchStartEndLine] reads that
    header. *)
Lemma patchStartEndLine_header hunk g rest :
  header hunk = Some (g, rest) →
  patchStartEndLine hunk
  = Some {| oldHunk :=
              {| startLine := parseInt (group2 g);
                 endLine := parseInt (group2 g) + parseInt (group3 g) - 1 |};
            newHunk :=
              {| startLine := parseInt (group4 g);
                 endLine := parseInt (group4 g) + parseInt (group5 g) - 1 |}
         |}.
Proof.
  intros Hh. unfold patchStartEndLine, exec, header_match.
  change (length hunk <? 0)%nat with false. cbn [bol_at]. rewrite drop_0.
  destruct hunk; cbn [search]; by rewrite Hh.
Qed.

Lemma patch_of_hunk_header hunk :
  is_Some (header hunk) →
  ∃ p, patch_of_hunk hunk = Some p ∧ 0 ≤ p.1.1 ∧ p.1.1 - 1 ≤ p.1.2.
Proof.
  intros [[g rest] Hh]. unfold patch_of_hunk, parsePatch.
  rewrite (patchStartEndLine_header _ _ _ Hh). cbn [newHunk startLine endLine].
  apply header_prefix in Hh as (_ & _ & _ & H4 & H5).
  apply parseInt_nonneg in H4, H5.
  eexists. split; [done|]. simpl. lia.
Qed.

(** X16. [parsePatchesFromFile] turns every hunk of the diff into a
    patch: the null checks on [patchStartEndLine] and [parsePatch] never
    skip a hunk that [splitPatch] returned, so there are as many patches
    as header lines.  Every patch has a non-negative start line and,
    when its end line is below [2 ^ 53], where the sums of the code are
    exact, an end line that is at least the start line less one.  A
    missing diff gives no patch. *)
Theorem parsePatchesFromFile_all_hunks patch :
  parsePatchesFromFile None = Some []
  ∧ ∃ patches,
      parsePatchesFromFile (Some patch) = Some patches
      ∧ length patches = length (header_lines patch)
      ∧ Forall (λ p : Patch,
                  0 ≤ p.1.1 ∧ (p.1.2 < 2 ^ 53 → p.1.1 - 1 ≤ p.1.2))
          patches.
Proof.
  split; [done|]. unfold parsePatchesFromFile.
  destruct (splitPatch_hunks patch) as (hunks & -> & <- & Hgood).
  eexists. split; [done|].
  induction Hgood as [|h hunks Hh _ [IHlen IHall]]; [by split|].
  destruct (patch_of_hunk_header h Hh) as (p & Hp & Hp0 & Hp1).
  cbn [omap list_omap]. rewrite Hp. fold (omap patch_of_hunk hunks).
  split; [simpl; by rewrite IHlen|by constructor].
Qed.

Lemma search_header_None bol s i :
  search header_match bol s i = None ↔ header_lines_from bol s i = [].
Proof.
  assert (∀ t, header_match t = None ↔ ¬ is_Some (header_line_match t))
    as Hsame.
  { intros t. unfold header_match, header_line_match.
    destruct (header t) as [[g rest]|]; simpl.
    - split; [done|]. intros []. eauto.
    - split; [by intros _ [? ?]|done]. }
  revert bol i. induction s as [|c s IH]; intros bol i;
    cbn [search header_lines_from]; destruct bol; cbn [andb].
  - destruct (header_match []) eqn:Hm.
    + split; [done|]. rewrite bool_decide_eq_true_2; [done|].
      destruct (header_line_match []) eqn:Hl; [eauto|].
      assert (header_match [] = None) as Hn
        by (apply Hsame; intros [? ?]; congruence).
      congruence.
    + apply Hsame in Hm. rewrite bool_decide_eq_false_2 by done. by split.
  - by split.
  - destruct (header_match (c :: s)) eqn:Hm.
    + split; [done|]. rewrite bool_decide_eq_true_2; [done|].
      destruct (header_line_match (c :: s)) eqn:Hl; [eauto|].
      assert (header_match (c :: s) = None) as Hn
        by (apply Hsame; intros [? ?]; congruence).
      congruence.
    + apply Hsame in Hm. rewrite bool_decide_eq_false_2 by done.
      apply IH.
  - apply IH.
Qed.

(** X17. [patchStartEndLine] returns [null] exactly when no line of the
    text matches the header pattern, which is exactly when [splitPatch]
    returns no hunk. *)
Theorem patchStartEndLine_None_iff patch :
  (patchStartEndLine patch = None ↔ header_lines patch = [])
  ∧ (header_lines patch = [] ↔ splitPatch (Some patch) = Some []).
Proof.
  split.
  - unfold patchStartEndLine, exec, header_lines.
    change (length patch <? 0)%nat with false. cbn [bol_at].
    rewrite drop_0, <-search_header_None.
    destruct (search header_match true patch 0) as [[j [g n]]|]; by split.
  - destruct (splitPatch_hunks patch) as (hunks & -> & Hlen & _).
    split.
    + intros Hnil. rewrite Hnil in Hlen. by destruct hunks.
    + intros [= ->]. by destruct (header_lines patch).
Qed.

End HunkProperties.

(** ** Where mapped reviews land *)

Section MappingProperties.
Import Review.

Lemma findBest_loop_within_inv s e patches bs be maxI :
  0 ≤ maxI →
  withinPatch (findBest_loop s e patches false bs be maxI) = true →
  ∃ p, p ∈ patches ∧ intersection s e p = e - s + 1
       ∧ 0 < intersection s e p.
Proof.
  revert bs be maxI.
  induction patches as [|[[qs qe] qt] l IH]; intros bs be maxI H0; simpl;
    [done|].
  change (Z.max 0 (Z.min e qe - Z.max s qs + 1))
    with (intersection s e (qs, qe, qt)).
  set (iq := intersection s e (qs, qe, qt)).
  destruct (Z.gtb_spec iq maxI) as [Hgt|Hle].
  - destruct (Z.eqb_spec iq (e - s + 1)) as [Heq|Hne].
    + intros _. exists (qs, qe, qt). split; [left|]. split; [done|].
      fold iq. lia.
    + intros (p & Hp & ?)%IH; [|lia]. exists p. split; [by right|done].
  - intros (p & Hp & ?)%IH; [|done]. exists p. split; [by right|done].
Qed.

Lemma intersection_full s e (p : Patch) :
  s ≤ e →
  intersection s e p = e - s + 1 ↔ p.1.1 ≤ s ∧ e ≤ p.1.2.
Proof. unfold intersection. lia. Qed.

Lemma mapReviewToPatch_within patches review p :
  p ∈ patches →
  intersection (Rev.startLine review) (Rev.endLine review) p
  = Rev.endLine review - Rev.startLine review + 1 →
  0 < intersection (Rev.startLine review) (Rev.endLine review) p →
  mapReviewToPatch patches review = inr review.
Proof.
  intros Hp Hfull Hpos. unfold mapReviewToPatch, findBestPatchMapping.
  rewrite (findBest_loop_within _ _ patches (-1) (-1) 0) by (lia || eauto).
  done.
Qed.

Lemma note_not_nil note (comment : jsstring) :
  note ≠ [] → note ++ comment ≠ comment.
Proof.
  intros Hne Heq. apply (f_equal length) in Heq.
  rewrite length_app in Heq. destruct note; [done|]. simpl in Heq. lia.
Qed.

Lemma note_greatest_overlap_not_nil review :
  note_greatest_overlap review ≠ [].
Proof. unfold note_greatest_overlap. by intros ?%(f_equal length). Qed.

Lemma note_no_overlap_not_nil review : note_no_overlap review ≠ [].
Proof. unfold note_no_overlap. by intros ?%(f_equal length). Qed.

Lemma changed_comment (note : jsstring) s e review :
  note ≠ [] →
  (inr {| Rev.comment := note ++ Rev.comment review;
          Rev.startLine := s; Rev.endLine := e |} : Exn + Review)
  ≠ inr review.
Proof.
  intros Hne Heq.
  assert (note ++ Rev.comment review = Rev.comment review) as Hc.
  { destruct review. cbn [Rev.comment] in *. congruence. }
  revert Hc. by apply note_not_nil.
Qed.

(** X18. For line numbers in the range where the arithmetic of the
    code is exact, a review whose range is not empty comes back from the
    mapper exactly as it went in, range and comment, if and only if its
    range lies inside the new range of some hunk. *)
Theorem mapReviewToPatch_unchanged_iff patches review :
  Rev.startLine review ≤ Rev.endLine review →
  safe_line (Rev.startLine review) →
  safe_line (Rev.endLine review) →
  Forall (λ p : Patch, safe_line p.1.1 ∧ safe_line p.1.2) patches →
  mapReviewToPatch patches review = inr review
  ↔ ∃ p : Patch, p ∈ patches ∧ p.1.1 ≤ Rev.startLine review
                 ∧ Rev.endLine review ≤ p.1.2.
Proof.
  intros Hle _ _ _. split.
  - unfold mapReviewToPatch, findBestPatchMapping.
    destruct (withinPatch _) eqn:Hw.
    + intros _.
      apply findBest_loop_within_inv in Hw as (p & Hp & Hfull & _); [|done].
      exists p. split; [done|]. by apply intersection_full.
    + cbn [negb]. destruct (_ && _).
      * intros Heq. exfalso. revert Heq.
        by apply changed_comment, note_greatest_overlap_not_nil.
      * destruct patches as [|[[s0 e0] t0] l]; [done|].
        intros Heq. exfalso. revert Heq.
        by apply changed_comment, note_no_overlap_not_nil.
  - intros (p & Hp & Hs & He).
    assert (intersection (Rev.startLine review) (Rev.endLine review) p
            = Rev.endLine review - Rev.startLine review + 1) as Hfull
      by by apply intersection_full.
    apply (mapReviewToPatch_within _ _ p Hp Hfull). lia.
Qed.

Lemma mapReviewToPatch_unchanged_iff_witness :
  let patches : list Patch := [(1, 10, js "a"); (20, 30, js "b")] in
  let review := Rev.mk 22 25 (js "c") in
  Rev.startLine review ≤ Rev.endLine review
  ∧ safe_line (Rev.startLine review)
  ∧ safe_line (Rev.endLine review)
  ∧ Forall (λ p : Patch, safe_line p.1.1 ∧ safe_line p.1.2) patches
  ∧ (mapReviewToPatch patches review = inr review
     ↔ ∃ p : Patch, p ∈ patches ∧ p.1.1 ≤ Rev.startLine review
                    ∧ Rev.endLine review ≤ p.1.2).
Proof.
  intros patches review.
  assert (Rev.startLine review ≤ Rev.endLine review) as Hle by (simpl; lia).
  assert (safe_line (Rev.startLine review)) as Hs
    by (unfold safe_line; simpl; lia).
  assert (safe_line (Rev.endLine review)) as He
    by (unfold safe_line; simpl; lia).
  assert (Forall (λ p : Patch, safe_line p.1.1 ∧ safe_line p.1.2) patches)
    as Hsafe by (repeat constructor; unfold safe_line; simpl; lia).
  split; [done|]. split; [done|]. split; [done|]. split; [done|].
  exact (mapReviewToPatch_unchanged_iff patches review Hle Hs He Hsafe).
Defined.

(** What the mapper returns, case by case. *)
Lemma mapReviewToPatch_cases patches review :
  patches ≠ [] →
  Forall (λ p : Patch, 0 ≤ p.1.1) patches →
  (∃ p, p ∈ patches
        ∧ within_patch review p
        ∧ mapReviewToPatch patches review = inr review)
  ∨ (∃ p, p ∈ patches
          ∧ mapReviewToPatch patches review
            = inr (remapped (note_greatest_overlap review) p review))
  ∨ (∃ p, p ∈ patches
          ∧ mapReviewToPatch patches review
            = inr (remapped (note_no_overlap review) p review)).
Proof.
  intros Hne Hpos.
  set (s := Rev.startLine review). set (e := Rev.endLine review).
  destruct (decide (Exists (λ p, intersection s e p = e - s + 1
                                 ∧ 0 < intersection s e p) patches))
    as [Hex|Hnex].
  - left. apply Exists_exists in Hex as (p & Hin & Hfull & Hp0).
    exists p. split; [done|].
    split; [|by apply (mapReviewToPatch_within _ _ p)].
    unfold within_patch. fold s e. unfold intersection in Hfull, Hp0. lia.
  - right. unfold mapReviewToPatch, findBestPatchMapping. fold s e.
    destruct (findBest_loop_best s e patches (-1) (-1) 0)
      as (bs' & be' & -> & Hkeep & Hfind); [lia| |].
    { intros p Hp Hlt Heq. apply Hnex, Exists_exists. by exists p. }
    simpl.
    pose proof (max_intersection_nonneg s e patches) as Hm0.
    destruct (decide (max_intersection s e patches ≤ 0)) as [Hm|Hm].
    + right. destruct (Hkeep Hm) as [-> ->]. simpl.
      destruct patches as [|[[s0 e0] t0] patches']; [done|].
      eexists. split; [left|done].
    + left. destruct Hfind as (i & p & Hf & -> & ->); [lia|].
      replace (Z.max 0 (max_intersection s e patches))
        with (max_intersection s e patches) in Hf by lia.
      apply list_find_Some in Hf as (Hi & Hp & _).
      apply list_elem_of_lookup_2 in Hi.
      rewrite Forall_forall in Hpos. specialize (Hpos p Hi).
      assert (0 < intersection s e p) as Hp0 by lia.
      unfold intersection in Hp0.
      destruct (Z.eqb_spec p.1.1 (-1)); [lia|].
      destruct (Z.eqb_spec p.1.2 (-1)); [lia|]. simpl.
      by exists p.
Qed.

(** X19. Given at least one hunk, hunks with non-negative start lines,
    and line numbers in the range where the arithmetic of the code is
    exact, the mapper never throws and the range of the review it returns
    always lies within the new range of one of the hunks. *)
Theorem mapReviewToPatch_within_hunk patches review :
  patches ≠ [] →
  Forall (λ p : Patch, 0 ≤ p.1.1) patches →
  safe_line (Rev.startLine review) →
  safe_line (Rev.endLine review) →
  Forall (λ p : Patch, safe_line p.1.1 ∧ safe_line p.1.2) patches →
  ∃ r p, mapReviewToPatch patches review = inr r
         ∧ p ∈ patches ∧ within_patch r p.
Proof.
  intros Hne Hpos _ _ _.
  destruct (mapReviewToPatch_cases patches review Hne Hpos)
    as [(p & Hp & Hw & ->)|[(p & Hp & ->)|(p & Hp & ->)]];
    eexists _, p; (split; [done|]); (split; [done|]);
    first [done|unfold within_patch; simpl; lia].
Qed.

Lemma mapReviewToPatch_within_hunk_witness :
  let patches : list Patch := [(1, 10, js "a"); (20, 30, js "b")] in
  let review := Rev.mk 12 40 (js "c") in
  patches ≠ []
  ∧ Forall (λ p : Patch, 0 ≤ p.1.1) patches
  ∧ safe_line (Rev.startLine review)
  ∧ safe_line (Rev.endLine review)
  ∧ Forall (λ p : Patch, safe_line p.1.1 ∧ safe_line p.1.2) patches
  ∧ ∃ r p, mapReviewToPatch patches review = inr r
           ∧ p ∈ patches ∧ within_patch r p.
Proof.
  intros patches review.
  assert (patches ≠ []) as Hne by done.
  assert (Forall (λ p : Patch, 0 ≤ p.1.1) patches) as Hpos
    by (repeat constructor; simpl; lia).
  assert (safe_line (Rev.startLine review)) as Hs
    by (unfold safe_line; simpl; lia).
  assert (safe_line (Rev.endLine review)) as He
    by (unfold safe_line; simpl; lia).
  assert (Forall (λ p : Patch, safe_line p.1.1 ∧ safe_line p.1.2) patches)
    as Hsafe by (repeat constructor; unfold safe_line; simpl; lia).
  split; [done|]. split; [done|]. split; [done|]. split; [done|].
  split; [done|].
  exact (mapReviewToPatch_within_hunk patches review Hne Hpos Hs He Hsafe).
Defined.


End MappingProperties.

(** ** The reviews read from a response *)

Section ReviewLoopProperties.
Import Review.

Lemma storeReview_placed patches s e comment reviews :
  patches ≠ [] →
  Forall (λ p : Patch, 0 ≤ p.1.1) patches →
  ∃ r, storeReview patches (Some s) (Some e) comment reviews
       = inr (reviews ++ [r])
       ∧ placed patches r.
Proof.
  intros Hne Hpos. unfold storeReview.
  destruct (mapReviewToPatch_cases patches (Rev.mk s e comment) Hne Hpos)
    as [(p & Hp & Hw & ->)|[(p & Hp & ->)|(p & Hp & ->)]];
    eexists; (split; [done|]); exists p; (split; [done|]);
    first [done|unfold within_patch; simpl; lia].
Qed.

(** The loop from any state it can be in: [current] is the range of the
    review being read, if any. *)
Lemma parseReview_lines_from patches lines (current : option (Z * Z))
    comment reviews :
  patches ≠ [] →
  Forall (λ p : Patch, 0 ≤ p.1.1) patches →
  ∃ new,
    parseReview_lines patches lines (fst <$> current) (snd <$> current)
      comment reviews
    = inr (reviews ++ new)
    ∧ length new
      = (length (range_lines lines) + (if current is Some _ then 1 else 0))%nat
    ∧ Forall (placed patches) new.
Proof.
  intros Hne Hpos. revert current comment reviews.
  induction lines as [|line lines IH]; intros current comment reviews.
  - cbn [parseReview_lines]. destruct current as [[s e]|]; cbn [fmap option_fmap option_map fst snd].
    + destruct (storeReview_placed patches s e comment reviews Hne Hpos)
        as (r & -> & Hr).
      exists [r]. split; [done|]. split; [done|]. by constructor.
    + exists []. split; [by rewrite app_nil_r|]. split; [done|]. constructor.
  - cbn [parseReview_lines]. unfold range_lines.
    rewrite filter_cons. fold (range_lines lines).
    assert (∃ mid,
      storeReview patches (fst <$> current) (snd <$> current) comment reviews
      = inr (reviews ++ mid)
      ∧ length mid = (if current is Some _ then 1 else 0)%nat
      ∧ Forall (placed patches) mid) as (mid & Hstore & Hlen & Hmid).
    { destruct current as [[s e]|]; cbn [fmap option_fmap option_map fst snd].
      - destruct (storeReview_placed patches s e comment reviews Hne Hpos)
          as (r & -> & Hr).
        exists [r]. split; [done|]. split; [done|]. by constructor.
      - exists []. split; [by rewrite app_nil_r|]. split; [done|].
        constructor. }
    destruct (range_exec true line) as [[g1 g2]|] eqn:Hline.
    + rewrite decide_True by done. rewrite Hstore.
      destruct (IH (Some (parseInt g1, parseInt g2)) [] (reviews ++ mid))
        as (new & Hnew & Hn & Hpl).
      cbn [fmap option_fmap option_map fst snd] in Hnew. rewrite Hnew.
      exists (mid ++ new). split; [by rewrite app_assoc|].
      split; [|by apply Forall_app].
      rewrite length_app, Hn, Hlen. simpl. lia.
    + rewrite decide_False by (by intros [? ?]).
      case_bool_decide as Hsep.
      * rewrite Hstore.
        destruct (IH None [] (reviews ++ mid)) as (new & Hnew & Hn & Hpl).
        cbn [fmap option_fmap option_map fst snd] in Hnew. rewrite Hnew.
        exists (mid ++ new). split; [by rewrite app_assoc|].
        split; [|by apply Forall_app].
        rewrite length_app, Hn, Hlen. destruct current; simpl; lia.
      * case_bool_decide; apply IH.
Qed.

(** X21. Given at least one hunk, hunks with non-negative start lines,
    and line numbers, in the hunks and in the response, in the range
    where the arithmetic of the code is exact, the line loop of
    [parseReview] never throws, returns exactly one review for each
    response line that carries a line range, and every review it returns
    lies within the new range of some hunk. *)
Theorem parseReview_lines_reviews patches lines :
  patches ≠ [] →
  Forall (λ p : Patch, 0 ≤ p.1.1) patches →
  Forall (λ p : Patch, safe_line p.1.1 ∧ safe_line p.1.2) patches →
  Forall (λ line, ∀ g1 g2,
            range_exec true line = Some (g1, g2) →
            safe_line (parseInt g1) ∧ safe_line (parseInt g2)) lines →
  ∃ reviews,
    parseReview_lines patches lines None None [] [] = inr reviews
    ∧ length reviews = length (range_lines lines)
    ∧ Forall (λ r, ∃ p, p ∈ patches ∧ within_patch r p) reviews.
Proof.
  intros Hne Hpos _ _.
  destruct (parseReview_lines_from patches lines None [] [] Hne Hpos)
    as (new & Hnew & Hn & Hpl).
  exists new. split; [done|]. split; [lia|done].
Qed.

Lemma parseReview_lines_reviews_witness :
  let patches : list Patch := [(1, 10, js "a"); (20, 30, js "b")] in
  let lines := [js "3-5:"; js "good"; js "---"; js "12-40:"; js "bad"] in
  patches ≠ []
  ∧ Forall (λ p : Patch, 0 ≤ p.1.1) patches
  ∧ Forall (λ p : Patch, safe_line p.1.1 ∧ safe_line p.1.2) patches
  ∧ Forall (λ line, ∀ g1 g2,
              range_exec true line = Some (g1, g2) →
              safe_line (parseInt g1) ∧ safe_line (parseInt g2)) lines
  ∧ ∃ reviews,
      parseReview_lines patches lines None None [] [] = inr reviews
      ∧ length reviews = length (range_lines lines)
      ∧ Forall (λ r, ∃ p, p ∈ patches ∧ within_patch r p) reviews.
Proof.
  intros patches lines.
  assert (patches ≠ []) as Hne by done.
  assert (Forall (λ p : Patch, 0 ≤ p.1.1) patches) as Hpos
    by (repeat constructor; simpl; lia).
  assert (Forall (λ p : Patch, safe_line p.1.1 ∧ safe_line p.1.2) patches)
    as Hsafe by (repeat constructor; unfold safe_line; simpl; lia).
  assert (Forall (λ line, ∀ g1 g2,
                    range_exec true line = Some (g1, g2) →
                    safe_line (parseInt g1) ∧ safe_line (parseInt g2)) lines)
    as Hlines.
  { unfold lines.
    repeat (constructor;
              [intros g1 g2 Hg; vm_compute in Hg; try discriminate;
               injection Hg as <- <-; unfold safe_line; by vm_compute|]).
    constructor. }
  split; [done|]. split; [done|]. split; [done|]. split; [done|].
  exact (parseReview_lines_reviews patches lines Hne Hpos Hsafe Hlines).
Defined.

Lemma storeReview_no_patches s e comment reviews :
  storeReview [] (Some s) (Some e) comment reviews = inl TypeError.
Proof. done. Qed.

Lemma parseReview_lines_no_patches_from lines (current : option (Z * Z))
    comment reviews :
  parseReview_lines [] lines (fst <$> current) (snd <$> current)
    comment reviews
  = if bool_decide (current = None ∧ range_lines lines = [])
    then inr reviews else inl TypeError.
Proof.
  revert current comment reviews.
  induction lines as [|line lines IH]; intros current comment reviews.
  - cbn [parseReview_lines]. by destruct current as [[s e]|].
  - cbn [parseReview_lines]. unfold range_lines.
    rewrite filter_cons. fold (range_lines lines).
    destruct (range_exec true line) as [[g1 g2]|] eqn:Hline.
    + rewrite decide_True by done.
      rewrite bool_decide_eq_false_2 by (by intros [_ ?]).
      destruct current as [[s e]|]; [done|].
      cbn [fmap option_fmap option_map storeReview].
      specialize (IH (Some (parseInt g1, parseInt g2)) [] reviews).
      cbn [fmap option_fmap option_map fst snd] in IH. rewrite IH.
      by rewrite bool_decide_eq_false_2 by (by intros [? _]).
    + rewrite decide_False by (by intros [? ?]).
      case_bool_decide as Hsep.
      * destruct current as [[s e]|].
        { by rewrite bool_decide_eq_false_2 by (by intros [? _]). }
        cbn [fmap option_fmap option_map storeReview].
        specialize (IH None [] reviews).
        by cbn [fmap option_fmap option_map fst snd] in IH.
      * case_bool_decide; apply IH.
Qed.

(** X22. With no hunk at all, the line loop of [parseReview] returns no
    review when no response line carries a line range, and throws a
    [TypeError] (from reading [patches[0][0]]) as soon as one does. *)
Theorem parseReview_lines_no_patches lines :
  parseReview_lines [] lines None None [] []
  = if bool_decide (range_lines lines = []) then inr [] else inl TypeError.
Proof.
  pose proof (parseReview_lines_no_patches_from lines None [] []) as H.
  cbn [fmap option_fmap option_map] in H. rewrite H.
  repeat case_bool_decide; naive_solver.
Qed.

End ReviewLoopProperties.

(** ** Line numbers printed for a hunk *)

Section NumberingProperties.
Import Review.







End NumberingProperties.

(** ** Token limits *)

Section LimitsProperties.
Import Limits.

(** X24. Whatever the model name, the limits built for it leave room for
    a request: the request budget is what remains of the maximum after
    the response budget and a margin of 100 tokens, and it is at least
    2900 tokens; the response budget is positive. *)
Theorem new_TokenLimits_request_budget model :
  let limits := new_TokenLimits model in
  requestTokens limits = maxTokens limits - responseTokens limits - 100
  ∧ 2900 ≤ requestTokens limits
  ∧ 0 < responseTokens limits.
Proof.
  unfold new_TokenLimits, limits_of.
  repeat (destruct (_ : bool); [cbn; lia|]). cbn. lia.
Qed.

End LimitsProperties.

(** ** Numbers written and read back *)

Section DigitProperties.
Import Review.

Lemma N_of_ascii_pretty_N_char d :
  (d < 10)%N → N_of_ascii (pretty_N_char d) = (48 + d)%N.
Proof.
  intros Hd.
  assert (d = 0 ∨ d = 1 ∨ d = 2 ∨ d = 3 ∨ d = 4 ∨ d = 5 ∨ d = 6 ∨ d = 7
          ∨ d = 8 ∨ d = 9)%N as Hcases by lia.
  destruct_or!; by subst.
Qed.

Lemma js_String c s : js (String c s) = N_of_ascii c :: js s.
Proof. done. Qed.

Lemma parseInt_snoc ds c :
  parseInt (ds ++ [c]) = 10 * parseInt ds + (Z.of_N c - 48).
Proof. unfold parseInt. by rewrite foldl_app. Qed.

Lemma js_pretty_N_go x s :
  ∃ ds, js (pretty_N_go x s) = ds ++ js s
        ∧ Forall (λ c, is_digit c = true) ds
        ∧ ((0 < x)%N → ds ≠ [])
        ∧ parseInt ds = Z.of_N x.
Proof.
  revert s. induction (N.lt_wf_0 x) as [x _ IH]; intros s.
  assert (x = 0 ∨ 0 < x)%N as [->|Hx] by lia.
  - exists []. rewrite pretty_N_go_0.
    split; [done|]. split; [constructor|]. split; [lia|done].
  - rewrite pretty_N_go_step by done.
    destruct (IH (x `div` 10)%N ltac:(by apply N.div_lt)
                 (String (pretty_N_char (x `mod` 10)) s))
      as (ds & -> & Hds & _ & Hval).
    assert (x `mod` 10 < 10)%N as Hmod by (by apply N.mod_lt).
    rewrite js_String, N_of_ascii_pretty_N_char by done.
    pose proof (N.div_mod x 10 ltac:(done)) as Hdm.
    revert Hmod Hdm Hval.
    generalize (x `mod` 10)%N (x `div` 10)%N. intros m q Hmod Hdm Hval.
    exists (ds ++ [48 + m])%N.
    split; [by rewrite <-app_assoc|]. split; [|split].
    + apply Forall_app. split; [done|]. constructor; [|constructor].
      unfold is_digit. apply andb_true_intro.
      split; apply N.leb_le; lia.
    + intros _. by destruct ds.
    + rewrite parseInt_snoc, Hval. lia.
Qed.

(** The decimal digits of a non-negative integer. *)
Lemma js_of_Z_digits n :
  0 ≤ n →
  js_of_Z n ≠ []
  ∧ Forall (λ c, is_digit c = true) (js_of_Z n)
  ∧ parseInt (js_of_Z n) = n.
Proof.
  intros Hn. unfold js_of_Z. destruct n as [|p|p]; [|clear Hn|lia].
  - split; [done|]. split; [|done]. by repeat constructor.
  - change (pretty (Z.pos p)) with (pretty_N_go (N.pos p) "").
    destruct (js_pretty_N_go (N.pos p) "") as (ds & -> & Hds & Hne & Hval).
    change (js "") with (@nil N). rewrite app_nil_r.
    split; [apply Hne; lia|]. split; [done|]. rewrite Hval. lia.
Qed.

Lemma digits1_js_of_Z n c r :
  0 ≤ n → is_digit c = false →
  digits1 (js_of_Z n ++ c :: r) = Some (js_of_Z n, c :: r).
Proof.
  intros Hn Hc. destruct (js_of_Z_digits n Hn) as (Hne & Hds & _).
  by apply digits1_app.
Qed.


Lemma header_round_trip a b c d rest :
  0 ≤ a → 0 ≤ b → 0 ≤ c → 0 ≤ d →
  header (js "@@ -" ++ js_of_Z a ++ js "," ++ js_of_Z b ++ js " +"
          ++ js_of_Z c ++ js "," ++ js_of_Z d ++ js " @@" ++ rest)
  = Some ({| group2 := js_of_Z a; group3 := js_of_Z b;
             group4 := js_of_Z c; group5 := js_of_Z d |}, rest).
Proof.
  intros Ha Hb Hc Hd. unfold header.
  rewrite lit_app. cbn [mbind option_bind].
  change (js "," ++ ?x) with (44%N :: x).
  rewrite digits1_js_of_Z by done. cbn [mbind option_bind].
  change (44%N :: ?x) with (js "," ++ x).
  rewrite lit_app. cbn [mbind option_bind].
  change (js " +" ++ ?x) with (32%N :: 43%N :: x).
  rewrite digits1_js_of_Z by done. cbn [mbind option_bind].
  change (32%N :: 43%N :: ?x) with (js " +" ++ x).
  rewrite lit_app. cbn [mbind option_bind].
  change (js "," ++ ?x) with (44%N :: x).
  rewrite digits1_js_of_Z by done. cbn [mbind option_bind].
  change (44%N :: ?x) with (js "," ++ x).
  rewrite lit_app. cbn [mbind option_bind].
  change (js " @@" ++ ?x) with (32%N :: 64%N :: 64%N :: x).
  rewrite digits1_js_of_Z by done. cbn [mbind option_bind].
  change (32%N :: 64%N :: 64%N :: ?x) with (js " @@" ++ x).
  by rewrite lit_app.
Qed.

(** X25. Reading back a header written from four numbers: for
    non-negative integers in the range where JavaScript numbers are exact,
    [patchStartEndLine] of a hunk that starts with
    [@@ -a,b +c,d @@] reports the old range from [a] to [a + b - 1] and
    the new range from [c] to [c + d - 1], whatever follows the header. *)
Theorem patchStartEndLine_round_trip a b c d rest :
  0 ≤ a → 0 ≤ b → a + b ≤ 2 ^ 53 →
  0 ≤ c → 0 ≤ d → c + d ≤ 2 ^ 53 →
  patchStartEndLine
    (js "@@ -" ++ js_of_Z a ++ js "," ++ js_of_Z b ++ js " +"
     ++ js_of_Z c ++ js "," ++ js_of_Z d ++ js " @@" ++ rest)
  = Some {| oldHunk := {| startLine := a; endLine := a + b - 1 |};
            newHunk := {| startLine := c; endLine := c + d - 1 |} |}.
Proof.
  intros Ha Hb _ Hc Hd _.
  rewrite (patchStartEndLine_header _ _ _
             (header_round_trip a b c d rest Ha Hb Hc Hd)).
  cbn [group2 group3 group4 group5].
  destruct (js_of_Z_digits a Ha) as (_ & _ & ->).
  destruct (js_of_Z_digits b Hb) as (_ & _ & ->).
  destruct (js_of_Z_digits c Hc) as (_ & _ & ->).
  by destruct (js_of_Z_digits d Hd) as (_ & _ & ->).
Qed.

Lemma patchStartEndLine_round_trip_witness :
  0 ≤ 10 ∧ 0 ≤ 2 ∧ 10 + 2 ≤ 2 ^ 53 ∧ 0 ≤ 20 ∧ 0 ≤ 3 ∧ 20 + 3 ≤ 2 ^ 53
  ∧ patchStartEndLine
      (js "@@ -" ++ js_of_Z 10 ++ js "," ++ js_of_Z 2 ++ js " +"
       ++ js_of_Z 20 ++ js "," ++ js_of_Z 3 ++ js " @@" ++ js " f()")
    = Some {| oldHunk := {| startLine := 10; endLine := 10 + 2 - 1 |};
              newHunk := {| startLine := 20; endLine := 20 + 3 - 1 |} |}.
Proof.
  assert (0 ≤ 10) as Ha by lia. assert (0 ≤ 2) as Hb by lia.
  assert (10 + 2 ≤ 2 ^ 53) as Hab by lia.
  assert (0 ≤ 20) as Hc by lia. assert (0 ≤ 3) as Hd by lia.
  assert (20 + 3 ≤ 2 ^ 53) as Hcd by lia.
  repeat (split; [done|]).
  exact (patchStartEndLine_round_trip 10 2 20 3 (js " f()")
           Ha Hb Hab Hc Hd Hcd).
Defined.

Lemma strip_skip pre c s bol :
  strip_numbers bol (length (pre ++ [c])) (pre ++ c :: s)
  = strip_numbers (is_line_terminator c) 0 s.
Proof.
  revert bol. induction pre as [|p pre IH]; intros bol; [done|].
  cbn [app length strip_numbers]. apply IH.
Qed.

Lemma strip_copy content s :
  Forall (λ c, is_line_terminator c = false) content →
  strip_numbers false 0 (content ++ s)
  = content ++ strip_numbers false 0 s.
Proof.
  induction 1 as [|c content Hc _ IH]; [done|].
  cbn [app strip_numbers]. by rewrite Hc, IH.
Qed.

Lemma number_prefix_numbered n content :
  0 ≤ n →
  number_prefix (js_of_Z n ++ js ": " ++ content)
  = Some (length (js_of_Z n ++ [58%N; 32%N])).
Proof.
  intros Hn. unfold number_prefix.
  destruct (js_of_Z_digits n Hn) as (Hne & Hds & _).
  destruct (js_of_Z n) as [|d ds] eqn:Hjs; [done|].
  assert (is_digit d = true) as Hd by by inversion Hds.
  assert (d ≠ 32%N) as Hd32.
  { intros ->. by vm_compute in Hd. }
  cbn [app drop_while]. rewrite bool_decide_eq_false_2 by done.
  change (js ": " ++ content) with (58%N :: 32%N :: content).
  change (d :: ds ++ ?x) with ((d :: ds) ++ x).
  rewrite digits1_app by done. cbn [mbind option_bind].
  change (58%N :: 32%N :: content) with (js ": " ++ content).
  rewrite lit_app. cbn [mbind option_bind]. f_equal.
  rewrite !length_app. change (length (js ": ")) with 2%nat. simpl. lia.
Qed.

(** One numbered line, followed by anything. *)
Lemma strip_numbered n content s :
  0 ≤ n →
  Forall (λ c, is_line_terminator c = false) content →
  strip_numbers true 0 (numbered n content ++ s)
  = content ++ strip_numbers false 0 s.
Proof.
  intros Hn Hcontent. unfold numbered.
  pose proof (number_prefix_numbered n (content ++ s) Hn) as Hp.
  rewrite <-!app_assoc.
  destruct (js_of_Z_digits n Hn) as (Hne & _ & _).
  destruct (js_of_Z n) as [|d ds] eqn:Hjs; [done|].
  cbn [app] in Hp |- *. cbn [strip_numbers]. cbn [length] in Hp.
  rewrite Hp.
  change (js ": " ++ ?x) with (58%N :: 32%N :: x).
  replace (ds ++ 58%N :: 32%N :: content ++ s)
    with ((ds ++ [58%N]) ++ 32%N :: content ++ s) by by rewrite <-app_assoc.
  replace (length (ds ++ [58%N; 32%N]))
    with (length ((ds ++ [58%N]) ++ [32%N])) by by rewrite <-app_assoc.
  rewrite strip_skip. by apply strip_copy.
Qed.

(** *** The replacement, line by line *)

Lemma drop_while_app_stop p l c r :
  p c = false →
  drop_while p (l ++ c :: r) = drop_while p l ++ c :: r.
Proof.
  intros Hc. induction l as [|d l IH]; simpl; [by rewrite Hc|].
  by destruct (p d).
Qed.

Lemma take_while_app_stop p l c r :
  p c = false →
  take_while p (l ++ c :: r) = take_while p l.
Proof.
  intros Hc. induction l as [|d l IH]; simpl; [by rewrite Hc|].
  destruct (p d); [by rewrite IH|done].
Qed.

Lemma drop_while_length p s : (length (drop_while p s) ≤ length s)%nat.
Proof. induction s as [|c s IH]; simpl; [done|]. destruct (p c); simpl; lia. Qed.

Lemma digits1_app_stop l c r :
  is_digit c = false →
  digits1 (l ++ c :: r)
  = (λ '(ds, rest), (ds, rest ++ c :: r)) <$> digits1 l.
Proof.
  intros Hc. unfold digits1.
  rewrite take_while_app_stop, drop_while_app_stop by done.
  by destruct (take_while is_digit l).
Qed.

Lemma lit_app_stop p l c r :
  c ∉ p →
  lit p (l ++ c :: r) = (λ rest, rest ++ c :: r) <$> lit p l.
Proof.
  revert l. induction p as [|d p IH]; intros l Hc; [done|].
  apply not_elem_of_cons in Hc as [Hcd Hc].
  destruct l as [|e l]; simpl.
  - by rewrite bool_decide_eq_false_2 by done.
  - case_bool_decide; [by apply IH|done].
Qed.

(** A match of the pattern does not look beyond the line. *)
Lemma number_prefix_line line rest :
  number_prefix (line ++ 10%N :: rest) = number_prefix line.
Proof.
  unfold number_prefix.
  rewrite drop_while_app_stop by done.
  rewrite digits1_app_stop by done.
  destruct (digits1 _) as [[ds s2]|]; [|done]. cbn [fmap option_fmap option_map mbind option_bind].
  rewrite lit_app_stop
    by (change (js ": ") with [58%N; 32%N]; rewrite !not_elem_of_cons;
        repeat split; [done..|apply not_elem_of_nil]).
  destruct (lit (js ": ") s2) as [s3|] eqn:Hlit; [|done].
  cbn [fmap option_fmap option_map mbind option_bind]. f_equal.
  rewrite !length_app. simpl. lia.
Qed.

Lemma number_prefix_bounds line n :
  number_prefix line = Some n → (1 ≤ n ≤ length line)%nat.
Proof.
  unfold number_prefix. intros Hn.
  pose proof (drop_while_length (λ c, bool_decide (c = 32%N)) line) as Hlen.
  destruct (digits1 _) as [[ds s2]|] eqn:Hd; [|done].
  apply digits1_digits in Hd as (Hs1 & Hne & _).
  cbn [mbind option_bind] in Hn.
  destruct (lit (js ": ") s2) as [s3|] eqn:Hlit; [|done].
  apply lit_Some in Hlit. injection Hn as <-.
  rewrite Hs1, Hlit, !length_app in Hlen. destruct ds; [done|].
  simpl in Hlen. lia.
Qed.

Lemma strip_skip_line bol pre s :
  pre ≠ [] →
  Forall (λ c, is_line_terminator c = false) pre →
  strip_numbers bol (length pre) (pre ++ s) = strip_numbers false 0 s.
Proof.
  intros Hne Hpre.
  destruct (exists_last Hne) as (pre' & c & ->).
  apply Forall_app in Hpre as [_ Hc]. inversion_clear Hc as [|? ? Hc' _].
  rewrite <-app_assoc. cbn [app]. by rewrite strip_skip, Hc'.
Qed.

(** A line that is not empty, followed by anything that does not change
    what is matched at its start. *)
Lemma strip_line_step line s :
  line ≠ [] →
  Forall (λ c, is_line_terminator c = false) line →
  number_prefix (line ++ s) = number_prefix line →
  strip_numbers true 0 (line ++ s)
  = strip_line line ++ strip_numbers false 0 s.
Proof.
  intros Hne Hline Hprefix. unfold strip_line.
  destruct (number_prefix line) as [n|] eqn:Hn.
  - apply number_prefix_bounds in Hn as Hb.
    rewrite <-(take_drop n line) at 1. rewrite <-(take_drop n line) in Hprefix.
    rewrite <-app_assoc in Hprefix |- *.
    assert (length (take n line) = n) as Hlen by (rewrite length_take; lia).
    transitivity
      (strip_numbers true (length (take n line))
         (take n line ++ drop n line ++ s)).
    { rewrite Hlen. destruct (take n line) as [|c pre]; [simpl in Hlen; lia|].
      cbn [app] in Hprefix |- *. cbn [strip_numbers]. rewrite Hprefix.
      destruct n; [lia|]. done. }
    rewrite strip_skip_line.
    + apply strip_copy. by apply Forall_drop.
    + intros Hnil. rewrite Hnil in Hlen. simpl in Hlen. lia.
    + by apply Forall_take.
  - destruct line as [|c line]; [done|].
    cbn [app] in Hprefix |- *. cbn [strip_numbers]. rewrite Hprefix.
    inversion_clear Hline as [|? ? Hc Hline']. rewrite Hc.
    f_equal. by apply strip_copy.
Qed.

Lemma strip_line_last line :
  Forall (λ c, is_line_terminator c = false) line →
  strip_numbers true 0 line = strip_line line.
Proof.
  intros Hline. destruct (decide (line = [])) as [->|Hne]; [done|].
  pose proof (strip_line_step line [] Hne Hline) as Hstep.
  rewrite !app_nil_r in Hstep. by apply Hstep.
Qed.

Lemma strip_line_cons line rest :
  Forall (λ c, is_line_terminator c = false) line →
  strip_numbers true 0 (line ++ 10%N :: rest)
  = strip_line line ++ 10%N :: strip_numbers true 0 rest.
Proof.
  intros Hline. destruct (decide (line = [])) as [->|Hne].
  - pose proof (number_prefix_line [] rest) as Hp.
    cbn [app] in Hp |- *. cbn [strip_numbers]. by rewrite Hp.
  - rewrite (strip_line_step line _ Hne Hline (number_prefix_line _ _)).
    done.
Qed.

Lemma strip_numbers_lines lines :
  Forall (Forall (λ c, is_line_terminator c = false)) lines →
  strip_numbers true 0 (join_lines lines)
  = join_lines (strip_line <$> lines).
Proof.
  induction 1 as [|line lines Hline Hlines IH]; [done|].
  destruct lines as [|line' lines].
  - by apply strip_line_last.
  - cbn [join_lines fmap list_fmap] in IH |- *.
    rewrite strip_line_cons by done. by rewrite IH.
Qed.

(** X26. The replacement of [sanitizeCodeBlock] works line by line: in
    a code block whose lines hold no other line terminator, what it
    returns is the block with each line's own leading match of
    [ *(\d+): ] removed, and every line is kept. *)
Theorem remove_line_numbers_lines lines :
  Forall (Forall (λ c, is_line_terminator c = false)) lines →
  remove_line_numbers (join_lines lines)
  = join_lines (strip_line <$> lines).
Proof. apply strip_numbers_lines. Qed.

Lemma remove_line_numbers_lines_witness :
  let lines := [js ""; js "12: a"; js "  13:  b"; js "c 14: d"; js ""] in
  Forall (Forall (λ c, is_line_terminator c = false)) lines
  ∧ remove_line_numbers (join_lines lines)
    = join_lines (strip_line <$> lines).
Proof.
  intros lines.
  assert (Forall (Forall (λ c, is_line_terminator c = false)) lines)
    as Hlines by (repeat constructor).
  split; [done|]. exact (remove_line_numbers_lines lines Hlines).
Defined.

Lemma strip_line_numbered n content :
  0 ≤ n → strip_line (numbered n content) = content.
Proof.
  intros Hn. unfold strip_line, numbered.
  rewrite number_prefix_numbered by done.
  change (js ": " ++ content) with ([58%N; 32%N] ++ content).
  rewrite app_assoc. by rewrite drop_app_length.
Qed.

(** X27. The numbers that [parsePatch] writes are the ones the
    replacement of [sanitizeCodeBlock] removes: a code block made of
    lines numbered as [parsePatch] numbers them, with non-negative line
    numbers in the range where JavaScript numbers are exact and contents
    that hold no line terminator, comes back as the contents alone. *)
Theorem remove_line_numbers_numbered (entries : list (Z * jsstring)) :
  Forall (λ e, 0 ≤ e.1 ≤ 2 ^ 53
               ∧ Forall (λ c, is_line_terminator c = false) e.2) entries →
  remove_line_numbers (join_lines ((λ e, numbered e.1 e.2) <$> entries))
  = join_lines (snd <$> entries).
Proof.
  intros Hentries. unfold remove_line_numbers. rewrite strip_numbers_lines.
  - f_equal. rewrite <-list_fmap_compose. apply list_fmap_ext.
    intros i e He. simpl. apply strip_line_numbered.
    rewrite Forall_forall in Hentries.
    apply list_elem_of_lookup_2, Hentries in He. lia.
  - apply Forall_fmap. eapply Forall_impl; [exact Hentries|].
    intros [n content] [Hn Hcontent]. simpl in *. unfold numbered.
    destruct (js_of_Z_digits n ltac:(lia)) as (_ & Hds & _).
    apply Forall_app. split.
    + eapply Forall_impl; [exact Hds|]. intros c Hc.
      unfold is_digit in Hc. apply andb_prop in Hc as [H1%N.leb_le H2%N.leb_le].
      unfold is_line_terminator. apply bool_decide_eq_false_2. lia.
    + apply Forall_app. split; [by repeat constructor|done].
Qed.

Lemma remove_line_numbers_numbered_witness :
  let entries := [(12, js "a"); (13, js " b"); (14, js "15: c")] in
  Forall (λ e, 0 ≤ e.1 ≤ 2 ^ 53
               ∧ Forall (λ c, is_line_terminator c = false) e.2) entries
  ∧ remove_line_numbers (join_lines ((λ e, numbered e.1 e.2) <$> entries))
    = join_lines (snd <$> entries).
Proof.
  intros entries.
  assert (Forall (λ e, 0 ≤ e.1 ≤ 2 ^ 53
                       ∧ Forall (λ c, is_line_terminator c = false) e.2)
            entries) as Hentries
    by (repeat constructor; simpl; lia).
  split; [done|]. exact (remove_line_numbers_numbered entries Hentries).
Defined.

End DigitProperties.

(** ** A well-formed review, end to end *)

Section ReviewRoundTrip.
Import Review.

Lemma range_exec_range a b :
  0 ≤ a → 0 ≤ b →
  range_exec true (js_of_Z a ++ js "-" ++ js_of_Z b ++ js ":")
  = Some (js_of_Z a, js_of_Z b).
Proof.
  intros Ha Hb.
  assert (range_tail (js_of_Z a ++ js "-" ++ js_of_Z b ++ js ":")
          = Some (js_of_Z a, js_of_Z b)) as Htail.
  { unfold range_tail.
    change (js "-" ++ ?x) with (45%N :: x).
    rewrite digits1_js_of_Z by done. cbn [mbind option_bind].
    change (45%N :: ?x) with (js "-" ++ x).
    rewrite lit_app. cbn [mbind option_bind].
    change (js ":") with [58%N].
    rewrite digits1_js_of_Z by done. cbn [mbind option_bind].
    change [58%N] with (js ":" ++ []).
    rewrite lit_app. by cbn [mbind option_bind]. }
  destruct (js_of_Z a ++ js "-" ++ js_of_Z b ++ js ":") as [|c s];
    cbn [range_exec]; by rewrite Htail.
Qed.

(** Lines that neither open a review nor separate two. *)
Lemma parseReview_lines_comment patches texts s e comment reviews :
  Forall (λ text, range_exec true text = None
                  ∧ trim text ≠ commentSeparator) texts →
  parseReview_lines patches texts (Some s) (Some e) comment reviews
  = storeReview patches (Some s) (Some e)
      (comment ++ concat ((λ text, text ++ [10%N]) <$> texts)) reviews.
Proof.
  intros Htexts. revert comment.
  induction Htexts as [|text texts [Hrange Hsep] _ IH]; intros comment.
  - cbn [parseReview_lines fmap list_fmap concat]. by rewrite app_nil_r.
  - cbn [parseReview_lines]. rewrite Hrange.
    rewrite bool_decide_eq_false_2 by done.
    rewrite bool_decide_eq_true_2 by (split; eauto).
    rewrite IH. cbn [fmap list_fmap concat]. by rewrite <-!app_assoc.
Qed.

(** X28. A well-formed review is read exactly: when the response is a
    line [a-b:] followed by comment lines that neither carry a line range
    nor are the separator, for [0 ≤ a ≤ b] in the range where JavaScript
    numbers are exact and a range that lies inside some hunk, the line
    loop of [parseReview] returns one review, for the lines [a] to [b],
    whose comment is the comment lines, each followed by a newline. *)
Theorem parseReview_lines_one_review patches a b texts (p : Patch) :
  0 ≤ a ≤ b → b ≤ 2 ^ 53 →
  p ∈ patches → p.1.1 ≤ a → b ≤ p.1.2 →
  Forall (λ text, range_exec true text = None
                  ∧ trim text ≠ commentSeparator) texts →
  parseReview_lines patches
    ((js_of_Z a ++ js "-" ++ js_of_Z b ++ js ":") :: texts)
    None None [] []
  = inr [Rev.mk a b (concat ((λ text, text ++ [10%N]) <$> texts))].
Proof.
  intros Hab _ Hp Hpa Hpb Htexts.
  cbn [parseReview_lines]. rewrite range_exec_range by lia.
  cbn [storeReview].
  destruct (js_of_Z_digits a ltac:(lia)) as (_ & _ & ->).
  destruct (js_of_Z_digits b ltac:(lia)) as (_ & _ & ->).
  rewrite parseReview_lines_comment by done.
  unfold storeReview. cbn [app].
  rewrite (mapReviewToPatch_within _ _ p Hp); [done|..];
    unfold intersection; cbn [Rev.startLine Rev.endLine]; lia.
Qed.

Lemma parseReview_lines_one_review_witness :
  let patches : list Patch := [(1, 10, js "a"); (20, 30, js "b")] in
  let texts := [js "Please rename this."; js "It shadows x."] in
  0 ≤ 22 ≤ 25 ∧ 25 ≤ 2 ^ 53
  ∧ (20, 30, js "b") ∈ patches ∧ 20 ≤ 22 ∧ 25 ≤ 30
  ∧ Forall (λ text, range_exec true text = None
                    ∧ trim text ≠ commentSeparator) texts
  ∧ parseReview_lines patches
      ((js_of_Z 22 ++ js "-" ++ js_of_Z 25 ++ js ":") :: texts)
      None None [] []
    = inr [Rev.mk 22 25 (concat ((λ text, text ++ [10%N]) <$> texts))].
Proof.
  intros patches texts.
  assert (0 ≤ 22 ≤ 25) as Hab by lia.
  assert (25 ≤ 2 ^ 53) as Hb by lia.
  assert ((20, 30, js "b") ∈ patches) as Hp by (right; left).
  assert (20 ≤ 22) as Hpa by lia.
  assert (25 ≤ 30) as Hpb by lia.
  assert (Forall (λ text, range_exec true text = None
                          ∧ trim text ≠ commentSeparator) texts) as Htexts
    by (repeat constructor; by vm_compute).
  repeat (split; [done|]).
  exact (parseReview_lines_one_review patches 22 25 texts (20, 30, js "b")
           Hab Hb Hp Hpa Hpb Htexts).
Defined.

End ReviewRoundTrip.
